(** * Frame stacking for agent bodies: [all/bodies/vision.py]

    A shallow embedding of [FrameStack] and [LazyState] together with the
    part of the tensor library they rely on ([torch.cat] along dimension 1
    and [len] of a tensor).  Python lists are objects in a store, so that the
    sharing between the window held by a [FrameStack] and the windows held by
    the states it has emitted is visible. *)

From stdpp Require Import base numbers option list gmap.

Local Open Scope Z_scope.

(** ** Exceptions *)

Inductive exn := RuntimeError | IndexError | TypeError.

Inductive result (A : Type) :=
| Ok (a : A)
| Raise (e : exn).
Arguments Ok {A} a.
Arguments Raise {A} e.

Definition raises {A} (r : result A) : Prop := ∃ e, r = Raise e.

(** ** Tensors *)

Module torch.
Section tensor.
Variable elt : Type.

(** A tensor is its shape and its elements in row-major order. *)
Record Tensor := mkTensor { shape : list nat; data : list elt }.

Definition numel (sh : list nat) : nat := foldr Nat.mul 1%nat sh.

Definition wf (t : Tensor) : Prop := length (data t) = numel (shape t).

(** [len(t)]: the size of dimension 0; a 0-d tensor has no length. *)
Definition len (t : Tensor) : result nat :=
  match shape t with
  | [] => Raise TypeError
  | n :: _ => Ok n
  end.

(** [t.shape[1]], for a tensor that has a dimension 1. *)
Definition channels (t : Tensor) : nat := nth 1 (shape t) 0%nat.

(** The 1-D empty tensor, of shape (0,), which [cat] leaves out. *)
Definition skipped (t : Tensor) : bool := bool_decide (shape t = [0%nat]).

Definition same_but_dim1 (sh sh' : list nat) : bool :=
  match sh, sh' with
  | b :: _ :: tl, b' :: _ :: tl' => bool_decide (b = b' ∧ tl = tl')
  | _, _ => false
  end.

(** The elements of [t] at index [j] of dimension 0, where [inner] is the
    number of elements below dimension 1. *)
Definition row (inner j : nat) (t : Tensor) : list elt :=
  let w := (channels t * inner)%nat in take w (drop (j * w) (data t)).

(** A tensor of no dimension, which [cat] refuses wherever it stands. *)
Definition zero_dim (t : Tensor) : bool := bool_decide (shape t = []).

(** [torch.cat(ts, dim=1)].  An empty list is refused, and so is a list
    that holds a tensor of no dimension; tensors of shape (0,) are left out;
    the others must have at least two dimensions and agree on every
    dimension but dimension 1. *)
Definition cat (ts : list Tensor) : result Tensor :=
  match ts with
  | [] => Raise RuntimeError
  | _ :: _ =>
    if existsb zero_dim ts then Raise RuntimeError else
    match List.filter (λ t, negb (skipped t)) ts with
    | [] => Ok (mkTensor [0%nat] [])
    | t0 :: rest =>
      match shape t0 with
      | [] => Raise RuntimeError
      | [_] => Raise IndexError
      | b :: _ :: tl =>
        if forallb (λ t, same_but_dim1 (shape t0) (shape t)) rest
        then Ok (mkTensor
                   (b :: sum_list (map channels (t0 :: rest)) :: tl)
                   (concat (map (λ j, concat (map (row (numel tl) j) (t0 :: rest)))
                                (seq 0 b))))
        else Raise RuntimeError
      end
    end
  end.
End tensor.
Arguments mkTensor {elt} shape data.
Arguments shape {elt} t.
Arguments data {elt} t.
Arguments wf {elt} t.
Arguments len {elt} t.
Arguments channels {elt} t.
Arguments skipped {elt} t.
Arguments zero_dim {elt} t.
Arguments row {elt} inner j t.
Arguments cat {elt} ts.
End torch.

Abbreviation Tensor := torch.Tensor.

(** ** The store of list objects *)

Abbreviation loc := positive.

Section FrameStack.
Variable elt : Type.
Variable Info : Type.
Variable Reward : Type.
Variable Action : Type.
Variable Agent : Type.

(** Every Python list the code builds is an object of the store; a
    variable or an attribute holds its address.  Tensors are never written
    to by this code and are kept as values. *)
Local Abbreviation heap := (gmap loc (list (Tensor elt))).

Definition alloc (h : heap) (v : list (Tensor elt)) : loc * heap :=
  let l := fresh (dom h) in (l, <[l := v]> h).

Definition deref (h : heap) (l : loc) : list (Tensor elt) :=
  default [] (h !! l).

(** [[x]] *)
Definition list_new (h : heap) (x : Tensor elt) : loc * heap :=
  alloc h [x].

(** [l * n]; a count below one gives the empty list. *)
Definition list_mul (h : heap) (l : loc) (n : Z) : loc * heap :=
  alloc h (concat (replicate (Z.to_nat n) (deref h l))).

(** [l[1:]] *)
Definition list_slice1 (h : heap) (l : loc) : loc * heap :=
  alloc h (drop 1 (deref h l)).

(** [l1 + l2] *)
Definition list_add (h : heap) (l1 l2 : loc) : loc * heap :=
  alloc h (deref h l1 ++ deref h l2).

(** ** States *)

(** Modelled from the spec: class [State] of [all.environments] is not
    among the sources.  A state is composed of [raw], [mask] (0 signals a
    terminal state) and [info]; its constructor stores the three, its
    [features] are its [raw], and its length is the batch-dimension size
    of its [raw].  [LazyState] inherits the constructor and the three
    fields, with the address of a list of frames as [raw]. *)
Record State_ (R : Type) := mkState { raw : R; mask : Z; info : Info }.
Arguments mkState {R} raw mask info.
Arguments raw {R} s.
Arguments mask {R} s.
Arguments info {R} s.

Definition State := State_ (Tensor elt).
Definition LazyState := State_ loc.

Definition State_features (self : State) : result (Tensor elt) :=
  Ok (raw self).

Definition State_len (self : State) : result nat := torch.len (raw self).

(** [LazyState.features] *)
Definition LazyState_features (h : heap) (self : LazyState) : result (Tensor elt) :=
  torch.cat (deref h (raw self)).

(** [LazyState.__len__] *)
Definition LazyState_len (h : heap) (self : LazyState) : result nat :=
  match deref h (raw self) with
  | [] => Raise IndexError
  | frame :: _ => torch.len frame
  end.

(** The state handed to the wrapped agent is an instance of one of the two
    classes. *)
Inductive composite :=
| Eager (s : State)
| Lazy (s : LazyState).

Definition features (h : heap) (c : composite) : result (Tensor elt) :=
  match c with
  | Eager s => State_features s
  | Lazy s => LazyState_features h s
  end.

Definition len (h : heap) (c : composite) : result nat :=
  match c with
  | Eager s => State_len s
  | Lazy s => LazyState_len h s
  end.

Definition mask_of (c : composite) : Z :=
  match c with Eager s => mask s | Lazy s => mask s end.

Definition info_of (c : composite) : Info :=
  match c with Eager s => info s | Lazy s => info s end.

(** ** The wrapped agent *)

(** The agent is any object with an [act] method.  It has a state of its
    own and returns an action or raises.  It may read the lists of the
    store, through the state it is given, and writes to none of them. *)
Variable agent_act : heap → Agent → composite → Reward → Agent * result Action.

(** ** FrameStack *)

Record FrameStack := mkFrameStack {
  agent : Agent;
  _frames : loc;
  _size : Z;
  _lazy : bool
}.

Definition set_frames (self : FrameStack) (l : loc) : FrameStack :=
  mkFrameStack (agent self) l (_size self) (_lazy self).

Definition set_agent (self : FrameStack) (a : Agent) : FrameStack :=
  mkFrameStack a (_frames self) (_size self) (_lazy self).

(** Modelled from the spec: class [Body] of [all/bodies/_body.py] is not
    among the sources; a body wraps an agent, which its constructor keeps and
    [act] reaches as [self.agent]. *)
Definition Body__init__ (a : Agent) : Agent := a.

(** [FrameStack.__init__] *)
Definition __init__ (a : Agent) (size : Z) (lazy : bool) (h : heap)
  : heap * result FrameStack :=
  let '(l, h1) := alloc h [] in
  (h1, Ok (mkFrameStack (Body__init__ a) l size lazy)).

Definition default_size : Z := 4.
Definition default_lazy : bool := false.

(** Lines 13 to 16 of [act]: the update of the window. *)
Definition slide (self : FrameStack) (h : heap) (state : State)
  : FrameStack * heap :=
  match deref h (_frames self) with
  | [] =>
    let '(l1, h1) := list_new h (raw state) in
    let '(l2, h2) := list_mul h1 l1 (_size self) in
    (set_frames self l2, h2)
  | _ :: _ =>
    let '(l1, h1) := list_slice1 h (_frames self) in
    let '(l2, h2) := list_new h1 (raw state) in
    let '(l3, h3) := list_add h2 l1 l2 in
    (set_frames self l3, h3)
  end.

(** Lines 13 to 21 of [act]: the update of the window and the state that
    is built from it.  An exception of [torch.cat] leaves the window
    updated. *)
Definition compose (self : FrameStack) (h : heap) (state : State)
  : FrameStack * heap * result composite :=
  let '(self1, h1) := slide self h state in
  if _lazy self1
  then (self1, h1, Ok (Lazy (mkState (_frames self1) (mask state) (info state))))
  else
    match torch.cat (deref h1 (_frames self1)) with
    | Ok t => (self1, h1, Ok (Eager (mkState t (mask state) (info state))))
    | Raise e => (self1, h1, Raise e)
    end.

(** [FrameStack.act] *)
Definition act (self : FrameStack) (h : heap) (state : State) (reward : Reward)
  : FrameStack * heap * result Action :=
  let '(self1, h1, r) := compose self h state in
  match r with
  | Raise e => (self1, h1, Raise e)
  | Ok st =>
    let '(a, out) := agent_act h1 (agent self1) st reward in
    (set_agent self1 a, h1, out)
  end.

(** The window of a [FrameStack], oldest frame first. *)
Definition window (self : FrameStack) (h : heap) : list (Tensor elt) :=
  deref h (_frames self).

(** A sequence of calls of [act], each made whatever the outcome of the
    one before. *)
Fixpoint acts (self : FrameStack) (h : heap) (calls : list (State * Reward))
  : FrameStack * heap :=
  match calls with
  | [] => (self, h)
  | (state, reward) :: rest =>
    let '(self1, h1, _) := act self h state reward in
    acts self1 h1 rest
  end.

(** The same sequence, recording at every call what lines 13 to 21 leave:
    the [FrameStack], the store and the state handed to the agent (or the
    exception raised before the agent is reached). *)
Definition event : Type := FrameStack * heap * result composite.

Fixpoint trace (self : FrameStack) (h : heap) (calls : list (State * Reward))
  : list event :=
  match calls with
  | [] => []
  | (state, reward) :: rest =>
    let '(self1, h1, _) := act self h state reward in
    compose self h state :: trace self1 h1 rest
  end.

Definition ev_window (ev : event) : list (Tensor elt) := window ev.1.1 ev.1.2.

(** What a consumer reads from the state of an event: its [features]. *)
Definition ev_features (ev : event) : result (Tensor elt) :=
  match ev.2 with
  | Ok c => features ev.1.2 c
  | Raise e => Raise e
  end.

(** ** The window as a value *)

(** The contents of the window after lines 13 to 16, from its contents
    before and the new observation. *)
Definition next_window (size : Z) (w : list (Tensor elt)) (x : Tensor elt)
  : list (Tensor elt) :=
  match w with
  | [] => replicate (Z.to_nat size) x
  | _ :: _ => drop 1 w ++ [x]
  end.

Fixpoint windows (size : Z) (w : list (Tensor elt)) (xs : list (Tensor elt))
  : list (list (Tensor elt)) :=
  match xs with
  | [] => []
  | x :: xs' => next_window size w x :: windows size (next_window size w x) xs'
  end.

(** The state built by lines 18 to 21 from the address [l] and the
    contents [w] of the window. *)
Definition state_of (lazy : bool) (l : loc) (w : list (Tensor elt)) (state : State)
  : result composite :=
  if lazy
  then Ok (Lazy (mkState l (mask state) (info state)))
  else match torch.cat w with
       | Ok t => Ok (Eager (mkState t (mask state) (info state)))
       | Raise e => Raise e
       end.

(** The last [n] elements of a list. *)
Definition last_n {A} (n : nat) (l : list A) : list A :=
  drop (length l - n) l.

(** An observation with a batch axis and a channel axis. *)
Definition has_channel_axis (t : Tensor elt) : Prop :=
  (2 ≤ length (torch.shape t))%nat.

(** A tensor of batch size [b] and of dimensions [tl] below the channel
    axis, with any number of channels. *)
Definition fits (b : nat) (tl : list nat) (t : Tensor elt) : Prop :=
  ∃ c, torch.shape t = b :: c :: tl.

(** Two calls that differ at most in the mask of their states. *)
Definition same_but_mask (c1 c2 : State * Reward) : Prop :=
  raw c1.1 = raw c2.1 ∧ info c1.1 = info c2.1 ∧ c1.2 = c2.2.

(** An event of a lazy [FrameStack] against the event of an eager one at
    the same call: the [features] of the lazy state are the [raw] of the
    eager state, or the concatenation fails in both. *)
Definition lazy_matches_eager (l e : event) : Prop :=
  match l.2, e.2 with
  | Ok (Lazy ls), Ok (Eager es) => LazyState_features l.1.2 ls = Ok (raw es)
  | Ok (Lazy ls), Raise err => LazyState_features l.1.2 ls = Raise err
  | _, _ => False
  end.
End FrameStack.

Arguments alloc {elt} h v.
Arguments deref {elt} h l.
Arguments list_new {elt} h x.
Arguments list_mul {elt} h l n.
Arguments list_slice1 {elt} h l.
Arguments list_add {elt} h l1 l2.
Arguments mkState {Info R} raw mask info.
Arguments raw {Info R} s.
Arguments mask {Info R} s.
Arguments info {Info R} s.
Arguments State_features {elt Info} self.
Arguments State_len {elt Info} self.
Arguments LazyState_features {elt Info} h self.
Arguments LazyState_len {elt Info} h self.
Arguments Eager {elt Info} s.
Arguments Lazy {elt Info} s.
Arguments features {elt Info} h c.
Arguments len {elt Info} h c.
Arguments mask_of {elt Info} c.
Arguments info_of {elt Info} c.
Arguments mkFrameStack {Agent} agent _frames _size _lazy.
Arguments agent {Agent} f.
Arguments _frames {Agent} f.
Arguments _size {Agent} f.
Arguments _lazy {Agent} f.
Arguments set_frames {Agent} self l.
Arguments set_agent {Agent} self a.
Arguments __init__ {elt Agent} a size lazy h.
Arguments slide {elt Info Agent} self h state.
Arguments compose {elt Info Agent} self h state.
Arguments act {elt Info Reward Action Agent} agent_act self h state reward.
Arguments window {elt Agent} self h.
Arguments acts {elt Info Reward Action Agent} agent_act self h calls.
Arguments trace {elt Info Reward Action Agent} agent_act self h calls.
Arguments ev_window {elt Info Agent} ev.
Arguments ev_features {elt Info Agent} ev.
Arguments next_window {elt} size w x.
Arguments windows {elt} size w xs.
Arguments state_of {elt Info} lazy l w state.
Arguments has_channel_axis {elt} t.
Arguments fits {elt} b tl t.
Arguments same_but_mask {elt Info Reward} c1 c2.
Arguments lazy_matches_eager {elt Info Agent} l e.

(** ** Sample data *)

Module Sample.
(** Three observations of two samples, one channel and two pixels. *)
Definition a : Tensor Z := torch.mkTensor [2; 1; 2]%nat [1; 2; 3; 4].
Definition b : Tensor Z := torch.mkTensor [2; 1; 2]%nat [5; 6; 7; 8].
Definition c : Tensor Z := torch.mkTensor [2; 1; 2]%nat [9; 10; 11; 12].

Definition sa : State Z nat := mkState a 1 10%nat.
Definition sb : State Z nat := mkState b 0 11%nat.
Definition sb' : State Z nat := mkState b 1 11%nat.
Definition sc : State Z nat := mkState c 1 12%nat.

(** An observation of three samples, and one of two channels. *)
Definition odd : Tensor Z := torch.mkTensor [3; 1; 2]%nat [1; 2; 3; 4; 5; 6].
Definition wide : Tensor Z := torch.mkTensor [2; 2; 2]%nat [1; 2; 3; 4; 5; 6; 7; 8].
Definition sodd : State Z nat := mkState odd 1 13%nat.
Definition swide : State Z nat := mkState wide 1 14%nat.

Definition calls : list (State Z nat * Z) := [(sa, 0); (sb, 1); (sc, -1)].
Definition calls' : list (State Z nat * Z) := [(sa, 0); (sb', 1); (sc, -1)].

(** A stub agent: it records the states and rewards it is given and
    returns a fixed action. *)
Definition Stub : Type := list (composite Z nat * Z).
Definition sentinel : Z := 42.
Definition stub_act (h : gmap loc (list (Tensor Z))) (rec : Stub)
    (st : composite Z nat) (reward : Z) : Stub * result Z :=
  (rec ++ [(st, reward)], Ok sentinel).

(** The store and the [FrameStack] that [__init__] gives from an empty
    store. *)
Definition store0 : gmap loc (list (Tensor Z)) := ∅.
Definition store1 : gmap loc (list (Tensor Z)) := {[ 1%positive := [] ]}.
Definition stack (size : Z) (lazy : bool) : FrameStack Stub :=
  mkFrameStack [] 1%positive size lazy.
End Sample.

(** * The training driver: [tetris-ai/run.py] *)

(** Lines 38 to 84 of [dqn]: the loop over the episodes.  The environment
    ([Tetris]), the agent ([DQNAgent]) and the log ([CustomTensorBoard]) are
    not among the sources and are taken as parameters: operations on a world
    that holds them, each of which may raise.  The constants that [dqn] sets
    at its start are the fields of a configuration. *)

Module run.

(** The exceptions the driver raises itself, and those of the
    collaborators. *)
Inductive exc (E : Type) :=
| TypeError
| KeyError
| IndexError
| ZeroDivisionError
| Collaborator (e : E).
Arguments TypeError {E}.
Arguments KeyError {E}.
Arguments IndexError {E}.
Arguments ZeroDivisionError {E}.
Arguments Collaborator {E} e.

Inductive outcome (E A : Type) :=
| Done (a : A)
| Throw (e : exc E).
Arguments Done {E A} a.
Arguments Throw {E A} e.

(** Computations on the world [W] that return or raise. *)
Definition M (W E A : Type) : Type := W → W * outcome E A.

Definition ret {W E A} (a : A) : M W E A := λ w, (w, Done a).

Definition throw {W E A} (e : exc E) : M W E A := λ w, (w, Throw e).

Definition bind {W E A B} (m : M W E A) (k : A → M W E B) : M W E B :=
  λ w, match m w with
       | (w', Done a) => k a w'
       | (w', Throw e) => (w', Throw e)
       end.

Notation "'let!' x := m 'in' k" := (bind m (λ x, k))
  (at level 20, x pattern, m at level 100, k at level 200).

(** A call of a method of a collaborator, which returns a value or raises
    an exception of its own. *)
Definition call {W E A} (f : W → W * (A + E)) : M W E A :=
  λ w, match f w with
       | (w', inl a) => (w', Done a)
       | (w', inr e) => (w', Throw (Collaborator e))
       end.

(** The two exceptions of a failed lookup in the driver's own code. *)
Definition lookup_error {E A} (o : outcome E A) : Prop :=
  o = Throw KeyError ∨ o = Throw IndexError.

(** The truth value of an integer. *)
Definition truthy (n : Z) : bool := negb (n =? 0).

(** [l[i]] on a list: a negative index counts from the end; [None] stands
    for the [IndexError]. *)
Definition list_getitem {A} (l : list A) (i : Z) : option A :=
  let j := if i <? 0 then i + Z.of_nat (length l) else i in
  if j <? 0 then None else l !! Z.to_nat j.

(** [range(n)] *)
Definition range (n : Z) : list Z := map Z.of_nat (seq 0 (Z.to_nat n)).

(** A dict is the list of its items in insertion order; [d[k]] is the
    value of the item of key [k], and [None] stands for the [KeyError]. *)
Fixpoint dict_getitem {K V} `{EqDecision K} (d : list (K * V)) (k : K) : option V :=
  match d with
  | [] => None
  | (k', v) :: rest => if decide (k' = k) then Some v else dict_getitem rest k
  end.

Definition dict_values {K V} (d : list (K * V)) : list V := map snd d.

Record config (Delay : Type) := mkConfig {
  episodes : Z;
  max_steps : Z;
  render_every : Z;
  log_every : Z;
  train_every : Z;
  batch_size : Z;
  epochs : Z;
  render_delay : Delay
}.
Arguments mkConfig {Delay}.
Arguments episodes {Delay} c.
Arguments max_steps {Delay} c.
Arguments render_every {Delay} c.
Arguments log_every {Delay} c.
Arguments train_every {Delay} c.
Arguments batch_size {Delay} c.
Arguments epochs {Delay} c.
Arguments render_delay {Delay} c.

(** The constants of lines 14 to 26 that the loop reads. *)
Definition dqn_config {Delay} (delay : Delay) : config Delay :=
  mkConfig 2000 1000000000 1 1 1 512 1 delay.

(** The collaborators: the methods of the environment, of the agent and of
    the log that the loop calls.  A move is a pair of a column and a
    rotation; a game state is a value that [==] compares.  None of the
    methods writes to the dict that [get_next_states] has returned. *)
Record collaborators (W E Val Reward Score Delay : Type) := mkCollaborators {
  env_reset : W → W * (Val + E);
  env_get_next_states : W → W * (list (Z * Z * Val) + E);
  env_play : Z → Z → Z → bool → Delay → bool → W → W * (Reward * bool + E);
  env_get_game_score : W → W * (Score + E);
  agent_best_state : list Val → W → W * (Val + E);
  agent_add_to_memory : Val → Val → Reward → bool → W → W * (unit + E);
  agent_train : Z → Z → W → W * (unit + E);
  log_log : Z → Score → Z → W → W * (unit + E)
}.
Arguments mkCollaborators {W E Val Reward Score Delay}.
Arguments env_reset {W E Val Reward Score Delay} c.
Arguments env_get_next_states {W E Val Reward Score Delay} c.
Arguments env_play {W E Val Reward Score Delay} c.
Arguments env_get_game_score {W E Val Reward Score Delay} c.
Arguments agent_best_state {W E Val Reward Score Delay} c.
Arguments agent_add_to_memory {W E Val Reward Score Delay} c.
Arguments agent_train {W E Val Reward Score Delay} c.
Arguments log_log {W E Val Reward Score Delay} c.

Section driver.
Context {W E Val Reward Score Delay : Type} `{EqDecision Val}.
Variable co : collaborators W E Val Reward Score Delay.
Variable cfg : config Delay.

(** Lines 58 to 62: the first action whose state is the best state. *)
Fixpoint find_action (items : list (Z * Z * Val)) (best_state : Val) : option (Z * Z) :=
  match items with
  | [] => None
  | (a, state) :: rest =>
    if decide (state = best_state) then Some a else find_action rest best_state
  end.

(** Lines 55 to 69: one move.  With no action found, [best_action[0]]
    raises. *)
Definition game_step (episode : Z) (render record : bool) (current_state : Val) (steps : Z)
  : M W E (Val * Z * bool) :=
  let! next_states := call (env_get_next_states co) in
  let! best_state := call (agent_best_state co (dict_values next_states)) in
  match find_action next_states best_state with
  | None => throw TypeError
  | Some best_action =>
    let! (reward, done) :=
      call (env_play co best_action.1 best_action.2 episode render (render_delay cfg) record) in
    match dict_getitem next_states best_action with
    | None => throw KeyError
    | Some next_state =>
      let! _ := call (agent_add_to_memory co current_state next_state reward done) in
      match dict_getitem next_states best_action with
      | None => throw KeyError
      | Some current_state' => ret (current_state', steps + 1, done)
      end
    end
  end.

(** Lines 54 to 69: the game of one episode, which returns the number of
    moves; [None] when the fuel runs out before the loop ends. *)
Fixpoint game (fuel : nat) (episode : Z) (render record : bool)
    (current_state : Val) (steps : Z) (done : bool) : M W E (option Z) :=
  if negb done && (negb (truthy (max_steps cfg)) || (steps <? max_steps cfg))
  then match fuel with
       | O => ret None
       | S fuel' =>
         let! (current_state', steps', done') :=
           game_step episode render record current_state steps in
         game fuel' episode render record current_state' steps' done'
       end
  else ret (Some steps).

(** Line 46 *)
Definition render_flag (episode : Z) : bool :=
  (truthy (render_every cfg) && (episode mod render_every cfg =? 0))
  || (episode =? episodes cfg - 1).

(** Lines 75 and 76 *)
Definition train_step (episode : Z) : M W E unit :=
  if train_every cfg =? 0 then throw ZeroDivisionError
  else if episode mod train_every cfg =? 0
       then call (agent_train co (batch_size cfg) (epochs cfg))
       else ret tt.

(** Lines 79 to 84 *)
Definition log_step (episode : Z) (scores : list Score) (steps_list : list Z) : M W E unit :=
  if truthy (log_every cfg) && truthy episode && (episode mod log_every cfg =? 0)
  then match list_getitem scores (- log_every cfg) with
       | None => throw IndexError
       | Some avg_score =>
         match list_getitem steps_list (- log_every cfg) with
         | None => throw IndexError
         | Some avg_steps => call (log_log co episode avg_score avg_steps)
         end
       end
  else ret tt.

(** Lines 42 to 84: one episode, from the lists of scores and of step
    counts so far to the lists with those of this episode appended. *)
Definition episode_body (fuel : nat) (episode : Z)
    (scores : list Score) (steps_list : list Z)
  : M W E (option (list Score * list Z)) :=
  let! current_state := call (env_reset co) in
  let render := render_flag episode in
  let record := render_flag episode in
  let! played := game fuel episode render record current_state 0 false in
  match played with
  | None => ret None
  | Some steps =>
    let! score := call (env_get_game_score co) in
    let scores' := scores ++ [score] in
    let steps_list' := steps_list ++ [steps] in
    let! _ := train_step episode in
    let! _ := log_step episode scores' steps_list' in
    ret (Some (scores', steps_list'))
  end.

(** Lines 41 to 84 *)
Fixpoint episodes_loop (fuel : nat) (todo : list Z)
    (scores : list Score) (steps_list : list Z)
  : M W E (option (list Score * list Z)) :=
  match todo with
  | [] => ret (Some (scores, steps_list))
  | episode :: rest =>
    let! r := episode_body fuel episode scores steps_list in
    match r with
    | None => ret None
    | Some (scores', steps_list') => episodes_loop fuel rest scores' steps_list'
    end
  end.

(** Lines 38 to 84 *)
Definition training (fuel : nat) : M W E (option (list Score * list Z)) :=
  episodes_loop fuel (range (episodes cfg)) [] [].
End driver.
End run.

(** ** Sample collaborators *)

Module RunSample.
(** The world is the record of the calls made, the latest first. *)
Inductive made :=
| Reset
| NextStates
| Best
| Play (x rotation episode : Z) (render record : bool)
| Remember (current next : Z) (done : bool)
| GetScore
| Train
| Log (episode score steps : Z).

Fixpoint moves (w : list made) : Z :=
  match w with
  | [] => 0
  | Reset :: _ => 0
  | Play _ _ _ _ _ :: w' => 1 + moves w'
  | _ :: w' => moves w'
  end.

(** Three moves, two of which lead to the state 2. *)
Definition board : list (Z * Z * Z) := [((0, 0), 1); ((1, 0), 2); ((2, 1), 2)].

(** A game is over after three moves; its score is the number of moves. *)
Definition co : run.collaborators (list made) unit Z Z Z unit :=
  run.mkCollaborators
    (λ w, (Reset :: w, inl 0))
    (λ w, (NextStates :: w, inl board))
    (λ x rotation episode render _ record w,
       (Play x rotation episode render record :: w,
        inl (1, 3 <=? 1 + moves w)))
    (λ w, (GetScore :: w, inl (moves w)))
    (λ values w, (Best :: w, inl (foldr Z.max 0 values)))
    (λ current next _ done w, (Remember current next done :: w, inl tt))
    (λ _ _ w, (Train :: w, inl tt))
    (λ episode score steps w, (Log episode score steps :: w, inl tt)).

Definition two_episodes : run.config unit := run.mkConfig 2 2 1 1 1 512 1 tt.
Definition never_trains : run.config unit := run.mkConfig 2 2 1 1 0 512 1 tt.
End RunSample.

(** * Properties *)

(** ** Concatenation along the channel axis *)

Section cat.
Context {elt : Type}.
Implicit Types (t f : Tensor elt) (ts : list (Tensor elt)) (d : list elt).

Lemma filter_all {A} (p : A → bool) (l : list A) :
  Forall (λ x, p x = true) l → List.filter p l = l.
Proof. induction 1 as [|x l Hx _ IH]; simpl; [done|]. by rewrite Hx, IH. Qed.

Lemma channel_axis_not_skipped t :
  has_channel_axis t → negb (torch.skipped t) = true.
Proof.
  unfold has_channel_axis, torch.skipped. intros Hrank.
  rewrite bool_decide_eq_false_2; [done|]. intros Hsh. rewrite Hsh in Hrank.
  simpl in Hrank. lia.
Qed.

Lemma channel_axis_not_zero_dim ts :
  Forall has_channel_axis ts → existsb torch.zero_dim ts = false.
Proof.
  induction 1 as [|t ts Ht _ IH]; simpl; [done|]. rewrite IH.
  unfold torch.zero_dim, has_channel_axis in *.
  rewrite bool_decide_eq_false_2; [done|]. intros Hsh. rewrite Hsh in Ht.
  simpl in Ht. lia.
Qed.

(** On tensors with a channel axis nothing is left out. *)
Lemma cat_channel_axis f ts :
  Forall has_channel_axis (f :: ts) →
  torch.cat (f :: ts) =
  match torch.shape f with
  | [] => Raise RuntimeError
  | [_] => Raise IndexError
  | b :: _ :: tl =>
    if forallb (λ t, torch.same_but_dim1 (torch.shape f) (torch.shape t)) ts
    then Ok (torch.mkTensor
               (b :: sum_list (map torch.channels (f :: ts)) :: tl)
               (concat (map (λ j, concat (map (torch.row (torch.numel tl) j) (f :: ts)))
                            (seq 0 b))))
    else Raise RuntimeError
  end.
Proof.
  intros Hall. unfold torch.cat.
  rewrite (channel_axis_not_zero_dim (f :: ts) Hall).
  rewrite filter_all; [done|].
  eapply Forall_impl; [exact Hall|]. apply channel_axis_not_skipped.
Qed.





(** The length of a concatenation is the length of its first tensor. *)
Lemma cat_len f ts t :
  Forall has_channel_axis (f :: ts) →
  torch.cat (f :: ts) = Ok t → torch.len t = torch.len f.
Proof.
  intros Hall. rewrite cat_channel_axis by done. unfold torch.len.
  destruct (torch.shape f) as [|b [|c tl]]; try done.
  destruct (forallb _ _); [|done]. by intros [= <-].
Qed.

Lemma channel_axis_len f :
  has_channel_axis f → ∃ b, torch.len f = Ok b.
Proof.
  unfold has_channel_axis, torch.len.
  destruct (torch.shape f) as [|b sh]; simpl; [lia|]. by exists b.
Qed.
End cat.

(** ** The store *)

Section store.
Context {elt : Type}.
Implicit Types (h : gmap loc (list (Tensor elt))) (v : list (Tensor elt)).
Implicit Types (l : loc) (x : Tensor elt).

Lemma alloc_fresh h v : h !! (alloc h v).1 = None.
Proof. simpl. apply not_elem_of_dom, is_fresh. Qed.

Lemma alloc_lookup h v : (alloc h v).2 !! (alloc h v).1 = Some v.
Proof. simpl. apply lookup_insert_eq. Qed.

Lemma alloc_subseteq h v : h ⊆ (alloc h v).2.
Proof. apply insert_subseteq, (alloc_fresh h v). Qed.

Lemma deref_Some h l v : h !! l = Some v → deref h l = v.
Proof. unfold deref. by intros ->. Qed.

Lemma deref_weaken h h' l : h ⊆ h' → is_Some (h !! l) → deref h' l = deref h l.
Proof.
  intros Hsub [v Hv]. rewrite (deref_Some h l v Hv).
  apply deref_Some. by eapply lookup_weaken.
Qed.

Lemma fresh_weaken h h' l : h ⊆ h' → h' !! l = None → h !! l = None.
Proof.
  intros Hsub Hl. destruct (h !! l) as [v|] eqn:Hv; [|done].
  eapply lookup_weaken in Hv; [|done]. congruence.
Qed.

Lemma concat_replicate_singleton (n : nat) x :
  concat (replicate n [x]) = replicate n x.
Proof. induction n as [|n IH]; simpl; [done|]. by rewrite IH. Qed.
End store.

(** ** The window as a value *)

Section window_values.
Context {elt : Type}.
Implicit Types (w xs : list (Tensor elt)) (x : Tensor elt) (size : Z).

Lemma next_window_length size w x :
  length (next_window size w x) =
  match w with [] => Z.to_nat size | _ :: _ => length w end.
Proof.
  destruct w as [|f w]; simpl.
  - apply length_replicate.
  - rewrite length_app, drop_0. simpl. lia.
Qed.

Lemma next_window_nonempty size w x :
  w ≠ [] → next_window size w x = drop 1 w ++ [x].
Proof. by destruct w. Qed.

Lemma last_n_length {A} (n : nat) (l : list A) :
  (n ≤ length l)%nat → length (last_n n l) = n.
Proof. intros Hn. unfold last_n. rewrite length_drop. lia. Qed.

Lemma next_window_full size w x :
  1 ≤ size → w = [] ∨ length w = Z.to_nat size →
  length (next_window size w x) = Z.to_nat size.
Proof.
  intros Hsize Hw. rewrite next_window_length.
  destruct w as [|f w]; [done|]. by destruct Hw.
Qed.

Lemma next_window_Forall (R : Tensor elt → Prop) size w x :
  Forall R w → R x → Forall R (next_window size w x).
Proof.
  intros Hw Hx. destruct w as [|f w]; simpl.
  - by apply Forall_replicate.
  - rewrite drop_0. apply Forall_app. split; [|by repeat constructor].
    by apply Forall_cons in Hw as [_ ?].
Qed.

(** Sliding the last [n] elements of [l] gives the last [n] elements of
    [l] with the new element appended. *)
Lemma last_n_slide size xs x :
  1 ≤ size → (Z.to_nat size ≤ length xs)%nat →
  next_window size (last_n (Z.to_nat size) xs) x = last_n (Z.to_nat size) (xs ++ [x]).
Proof.
  intros Hsize Hlen.
  rewrite next_window_nonempty.
  - unfold last_n. rewrite drop_drop, length_app. simpl.
    rewrite drop_app_le by lia. do 2 f_equal. lia.
  - intros Hnil. apply (f_equal length) in Hnil.
    rewrite last_n_length in Hnil by done. simpl in Hnil. lia.
Qed.

(** From the empty window, the window after the observations [x :: xs] is
    the last [size] elements of [size] copies of [x] followed by [xs]. *)
Lemma foldl_next_window size x xs :
  1 ≤ size →
  foldl (next_window size) [] (x :: xs) =
  last_n (Z.to_nat size) (replicate (Z.to_nat size) x ++ xs).
Proof.
  intros Hsize. induction xs as [|y xs IH] using rev_ind.
  - simpl. unfold last_n. rewrite app_nil_r, length_replicate, Nat.sub_diag. done.
  - rewrite app_comm_cons, foldl_snoc, IH, app_assoc.
    apply last_n_slide; [done|]. rewrite length_app, length_replicate. lia.
Qed.
End window_values.

(** ** One call *)

Section one_call.
Context {elt Info Reward Action Agent : Type}.
Variable agent_act :
  gmap loc (list (Tensor elt)) → Agent → composite elt Info → Reward → Agent * result Action.
Implicit Types (h : gmap loc (list (Tensor elt))) (self : FrameStack Agent).
Implicit Types (state : State elt Info) (reward : Reward).

(** Lines 13 to 16 bind [_frames] to a list object that did not exist
    before, holding the next window, and write to no object that did. *)
Lemma slide_spec self h state :
  let r := slide self h state in
  r.1 = set_frames self (_frames r.1) ∧
  h ⊆ r.2 ∧
  h !! _frames r.1 = None ∧
  r.2 !! _frames r.1 = Some (next_window (_size self) (window self h) (raw state)).
Proof.
  unfold slide, window, next_window.
  destruct (deref h (_frames self)) as [|f w] eqn:Hw.
  - unfold list_new, list_mul.
    pose proof (alloc_fresh h [raw state]) as F1.
    pose proof (alloc_lookup h [raw state]) as L1.
    pose proof (alloc_subseteq h [raw state]) as S1.
    destruct (alloc h [raw state]) as [l1 h1]; simpl in F1, L1, S1.
    rewrite (deref_Some _ _ _ L1), concat_replicate_singleton.
    set (v := replicate _ _).
    pose proof (alloc_fresh h1 v) as F2.
    pose proof (alloc_lookup h1 v) as L2.
    pose proof (alloc_subseteq h1 v) as S2.
    destruct (alloc h1 v) as [l2 h2]; simpl in *.
    split_and!; [done| by etrans | by eapply fresh_weaken | done].
  - unfold list_slice1, list_new, list_add. rewrite Hw.
    set (v1 := drop 1 (f :: w)).
    pose proof (alloc_fresh h v1) as F1.
    pose proof (alloc_lookup h v1) as L1.
    pose proof (alloc_subseteq h v1) as S1.
    destruct (alloc h v1) as [l1 h1]; simpl in F1, L1, S1.
    pose proof (alloc_fresh h1 [raw state]) as F2.
    pose proof (alloc_lookup h1 [raw state]) as L2.
    pose proof (alloc_subseteq h1 [raw state]) as S2.
    destruct (alloc h1 [raw state]) as [l2 h2]; simpl in F2, L2, S2.
    rewrite (deref_Some h2 l2 _ L2).
    rewrite (deref_Some h2 l1 v1) by (by eapply lookup_weaken).
    set (v3 := v1 ++ _).
    pose proof (alloc_fresh h2 v3) as F3.
    pose proof (alloc_lookup h2 v3) as L3.
    pose proof (alloc_subseteq h2 v3) as S3.
    destruct (alloc h2 v3) as [l3 h3]; simpl in *.
    split_and!; [done| by do 2 etrans | | done].
    eapply fresh_weaken; [|done]. by etrans.
Qed.

Lemma compose_slide self h state :
  (compose self h state).1 = slide self h state.
Proof.
  unfold compose. destruct (slide self h state) as [self1 h1].
  destruct (_lazy self1); [done|]. by destruct (torch.cat _).
Qed.

Lemma compose_result self h state :
  let r := compose self h state in
  r.2 = state_of (_lazy self) (_frames r.1.1) (window r.1.1 r.1.2) state.
Proof.
  pose proof (slide_spec self h state) as (Hself & _).
  unfold compose, window, state_of. destruct (slide self h state) as [self1 h1].
  simpl in Hself. replace (_lazy self) with (_lazy self1) by (by rewrite Hself).
  destruct (_lazy self1); [done|].
  destruct (torch.cat (deref h1 (_frames self1))) eqn:Hcat; simpl; by rewrite Hcat.
Qed.

Lemma compose_lookup self h state :
  let r := compose self h state in
  r.1.2 !! _frames r.1.1 =
  Some (next_window (_size self) (window self h) (raw state)).
Proof.
  pose proof (slide_spec self h state) as (_ & _ & _ & Hwin).
  simpl. by rewrite !compose_slide.
Qed.

(** Whatever the class of the state, its [features] are the concatenation
    of the window it was built from. *)
Lemma state_of_features h lazy l w state :
  deref h l = w →
  match state_of lazy l w state with
  | Ok c => features h c
  | Raise e => Raise e
  end = torch.cat w.
Proof.
  intros Hw. unfold state_of. destruct lazy; simpl.
  - unfold LazyState_features. simpl. by rewrite Hw.
  - by destruct (torch.cat w).
Qed.

Lemma compose_features self h state :
  ev_features (compose self h state) = torch.cat (ev_window (compose self h state)).
Proof.
  unfold ev_features, ev_window. rewrite compose_result. simpl.
  by apply state_of_features.
Qed.

Lemma compose_spec self h state :
  let r := compose self h state in
  _size r.1.1 = _size self ∧ _lazy r.1.1 = _lazy self ∧ agent r.1.1 = agent self ∧
  h ⊆ r.1.2 ∧
  h !! _frames r.1.1 = None ∧
  window r.1.1 r.1.2 = next_window (_size self) (window self h) (raw state).
Proof.
  pose proof (slide_spec self h state) as (Hself & Hsub & Hnew & Hwin).
  simpl. rewrite !compose_slide.
  split_and!; try done; try (by rewrite Hself).
  by apply deref_Some.
Qed.

(** Line 23 leaves the store and the window as lines 13 to 21 left them. *)
Lemma act_compose self h state reward :
  let r := compose self h state in
  let r' := act agent_act self h state reward in
  r'.1.2 = r.1.2 ∧ _frames r'.1.1 = _frames r.1.1 ∧
  _size r'.1.1 = _size r.1.1 ∧ _lazy r'.1.1 = _lazy r.1.1.
Proof.
  unfold act. destruct (compose self h state) as [[self1 h1] [c|e]]; simpl; [|done].
  by destruct (agent_act h1 (agent self1) c reward).
Qed.

(** A lazy state holds the very list that is the window when it is built. *)
Lemma lazy_state_shares_window self h state ls :
  (compose self h state).2 = Ok (Lazy ls) →
  raw ls = _frames (compose self h state).1.1.
Proof.
  intros Hls. pose proof (compose_result self h state) as Hres.
  simpl in Hres. rewrite Hls in Hres. unfold state_of in Hres.
  destruct (_lazy self); [by injection Hres as ->|by destruct (torch.cat _)].
Qed.

Lemma act_raise self h state reward e :
  (compose self h state).2 = Raise e →
  (act agent_act self h state reward).2 = Raise e.
Proof.
  unfold act. destruct (compose self h state) as [[self1 h1] [c|e']]; simpl; [done|].
  by intros [= ->].
Qed.

Lemma act_spec self h state reward :
  let r' := act agent_act self h state reward in
  _size r'.1.1 = _size self ∧ _lazy r'.1.1 = _lazy self ∧
  h ⊆ r'.1.2 ∧
  h !! _frames r'.1.1 = None ∧
  window r'.1.1 r'.1.2 = next_window (_size self) (window self h) (raw state).
Proof.
  pose proof (compose_spec self h state) as (Hsz & Hlz & _ & Hsub & Hnew & Hwin).
  pose proof (act_compose self h state reward) as (Hh & Hf & Hsz' & Hlz').
  simpl in *. unfold window in *. rewrite Hh, Hf, Hsz', Hlz'. done.
Qed.
End one_call.

(** ** Sequences of calls *)

Section calls.
Context {elt Info Reward Action Agent : Type}.
Variable agent_act :
  gmap loc (list (Tensor elt)) → Agent → composite elt Info → Reward → Agent * result Action.
Implicit Types (h : gmap loc (list (Tensor elt))) (self : FrameStack Agent).
Implicit Types (state : State elt Info) (reward : Reward).
Implicit Types (calls : list (State elt Info * Reward)).

Lemma trace_cons self h state reward calls :
  trace agent_act self h ((state, reward) :: calls) =
  compose self h state ::
    trace agent_act (act agent_act self h state reward).1.1
          (act agent_act self h state reward).1.2 calls.
Proof. simpl. by destruct (act agent_act self h state reward) as [[??]?]. Qed.

Lemma acts_cons self h state reward calls :
  acts agent_act self h ((state, reward) :: calls) =
  acts agent_act (act agent_act self h state reward).1.1
       (act agent_act self h state reward).1.2 calls.
Proof. simpl. by destruct (act agent_act self h state reward) as [[??]?]. Qed.

Lemma trace_length self h calls : length (trace agent_act self h calls) = length calls.
Proof.
  revert self h. induction calls as [|[s r] calls IH]; intros; [done|].
  rewrite trace_cons. simpl. by rewrite IH.
Qed.

(** The windows of a run are those of the value-level description. *)
Lemma trace_windows self h calls :
  map ev_window (trace agent_act self h calls) =
  windows (_size self) (window self h) (map (λ c, raw c.1) calls).
Proof.
  revert self h. induction calls as [|[s r] calls IH]; intros; [done|].
  rewrite trace_cons.
  pose proof (compose_spec self h s) as (_ & _ & _ & _ & _ & Hw).
  pose proof (act_spec agent_act self h s r) as (Hsz & _ & _ & _ & Hw').
  simpl in *. rewrite IH, Hsz, Hw'. unfold ev_window. by rewrite Hw.
Qed.

Lemma acts_window self h calls :
  window (acts agent_act self h calls).1 (acts agent_act self h calls).2 =
  foldl (next_window (_size self)) (window self h) (map (λ c, raw c.1) calls).
Proof.
  revert self h. induction calls as [|[s r] calls IH]; intros; [done|].
  rewrite acts_cons.
  pose proof (act_spec agent_act self h s r) as (Hsz & _ & _ & _ & Hw').
  simpl in *. by rewrite IH, Hsz, Hw'.
Qed.

(** The state of every event is built from the window of that event. *)
Lemma trace_results self h calls :
  Forall2 (λ ev call,
             ev.2 = state_of (_lazy self) (_frames ev.1.1) (ev_window ev) call.1)
          (trace agent_act self h calls) calls.
Proof.
  revert self h. induction calls as [|[s r] calls IH]; intros; [constructor|].
  rewrite trace_cons. constructor.
  - apply compose_result.
  - pose proof (act_spec agent_act self h s r) as (_ & Hlz & _).
    simpl in Hlz. rewrite <- Hlz. apply IH.
Qed.

Lemma trace_features self h calls :
  Forall (λ ev, ev_features ev = torch.cat (ev_window ev)) (trace agent_act self h calls).
Proof.
  revert self h. induction calls as [|[s r] calls IH]; intros; [constructor|].
  rewrite trace_cons. constructor; [apply compose_features | apply IH].
Qed.

(** An invariant [I] of the window, kept by every update on observations
    satisfying [Q], gives at every event what the update establishes. *)
Lemma trace_invariant
    (I : list (Tensor elt) → Prop) (Q : Tensor elt → Prop)
    (P : list (Tensor elt) → Tensor elt → Prop) self h calls :
  (∀ w x, I w → Q x →
          I (next_window (_size self) w x) ∧ P (next_window (_size self) w x) x) →
  I (window self h) →
  Forall (λ c, Q (raw c.1)) calls →
  Forall2 (λ ev call,
             P (ev_window ev) (raw call.1) ∧
             ev.2 = state_of (_lazy self) (_frames ev.1.1) (ev_window ev) call.1)
          (trace agent_act self h calls) calls.
Proof.
  intros Hstep. revert self h Hstep.
  induction calls as [|[s r] calls IH]; intros self h Hstep HI HQ; [constructor|].
  apply Forall_cons in HQ as [Hs HQ]. simpl in Hs.
  destruct (Hstep _ _ HI Hs) as [HI' HP].
  pose proof (compose_spec self h s) as (_ & _ & _ & _ & _ & Hw).
  pose proof (act_spec agent_act self h s r) as (Hsz & Hlz & _ & _ & Hw').
  rewrite trace_cons. simpl in *. constructor.
  - split; [|apply compose_result]. unfold ev_window. simpl. by rewrite Hw.
  - rewrite <- Hlz. apply IH; [by rewrite Hsz | by rewrite Hw' | done].
Qed.

(** Two runs on the same observations, from windows with the same
    contents, have the same windows and the same features throughout. *)
Lemma traces_agree self1 h1 self2 h2 calls1 calls2 :
  _size self1 = _size self2 →
  window self1 h1 = window self2 h2 →
  Forall2 (λ c1 c2, raw c1.1 = raw c2.1) calls1 calls2 →
  Forall2 (λ e1 e2, ev_window e1 = ev_window e2 ∧ ev_features e1 = ev_features e2)
          (trace agent_act self1 h1 calls1) (trace agent_act self2 h2 calls2).
Proof.
  intros Hsz Hw Hcalls. revert self1 h1 self2 h2 Hsz Hw.
  induction Hcalls as [|[s1 r1] [s2 r2] calls1 calls2 Hraw _ IH];
    intros; [constructor|].
  simpl in Hraw. rewrite !trace_cons.
  pose proof (compose_spec self1 h1 s1) as (_ & _ & _ & _ & _ & Hw1).
  pose proof (compose_spec self2 h2 s2) as (_ & _ & _ & _ & _ & Hw2).
  pose proof (act_spec agent_act self1 h1 s1 r1) as (Hsz1 & _ & _ & _ & Hw1').
  pose proof (act_spec agent_act self2 h2 s2 r2) as (Hsz2 & _ & _ & _ & Hw2').
  simpl in *.
  assert (Hev : ev_window (compose self1 h1 s1) = ev_window (compose self2 h2 s2)).
  { unfold ev_window. by rewrite Hw1, Hw2, Hsz, Hw, Hraw. }
  constructor.
  - split; [done|]. by rewrite !compose_features, Hev.
  - apply IH; [congruence|]. by rewrite Hw1', Hw2', Hsz, Hw, Hraw.
Qed.
End calls.

(** ** Construction *)

Section construction.
Context {elt Agent : Type}.
Implicit Types (h : gmap loc (list (Tensor elt))) (self : FrameStack Agent).

Lemma init_spec (a : Agent) size lazy h0 h self :
  __init__ a size lazy h0 = (h, Ok self) →
  window self h = [] ∧ _size self = size ∧ _lazy self = lazy ∧ agent self = a.
Proof.
  unfold __init__. pose proof (alloc_lookup h0 []) as Hl.
  destruct (alloc h0 []) as [l h1]. simpl in Hl.
  intros [= <- <-]. split_and!; try done. by apply deref_Some.
Qed.
End construction.

(** ** The claims *)

Section claims.
Context {elt Info Reward Action Agent : Type}.
Variable agent_act :
  gmap loc (list (Tensor elt)) → Agent → composite elt Info → Reward → Agent * result Action.
Implicit Types (h : gmap loc (list (Tensor elt))) (self : FrameStack Agent).
Implicit Types (state : State elt Info) (reward : Reward).
Implicit Types (calls : list (State elt Info * Reward)).

(** C1.  For a window size of at least one, after the calls carrying the
    observations o1, o2, ..., ok the window, oldest frame first, is the
    last [size] elements of [size] copies of o1 followed by o2, ..., ok. *)
Theorem C1_window_slides (a : Agent) size lazy h0 h self state1 reward1 calls :
  1 ≤ size →
  __init__ a size lazy h0 = (h, Ok self) →
  let r := acts agent_act self h ((state1, reward1) :: calls) in
  window r.1 r.2 =
  last_n (Z.to_nat size)
         (replicate (Z.to_nat size) (raw state1) ++ map (λ c, raw c.1) calls).
Proof.
  intros Hsize (Hw & Hsz & _)%init_spec. simpl.
  change (let '(self1, h1, _) := act agent_act self h state1 reward1 in
          acts agent_act self1 h1 calls)
    with (acts agent_act self h ((state1, reward1) :: calls)).
  rewrite acts_window, Hw, Hsz. by apply foldl_next_window.
Qed.

Lemma lazy_eager_agree selfL hL selfE hE calls :
  _lazy selfL = true → _lazy selfE = false →
  _size selfL = _size selfE →
  window selfL hL = window selfE hE →
  Forall2 lazy_matches_eager
          (trace agent_act selfL hL calls) (trace agent_act selfE hE calls).
Proof.
  revert selfL hL selfE hE.
  induction calls as [|[s r] calls IH]; intros selfL hL selfE hE HL HE Hsz Hw;
    [constructor|].
  rewrite !trace_cons.
  pose proof (compose_spec selfL hL s) as (_ & _ & _ & _ & _ & HwL).
  pose proof (compose_spec selfE hE s) as (_ & _ & _ & _ & _ & HwE).
  pose proof (act_spec agent_act selfL hL s r) as (HszL & HlzL & _ & _ & HwL').
  pose proof (act_spec agent_act selfE hE s r) as (HszE & HlzE & _ & _ & HwE').
  simpl in *. constructor.
  - unfold lazy_matches_eager. rewrite !compose_result. simpl.
    rewrite HL, HE. unfold state_of, LazyState_features. simpl.
    fold (window (compose selfL hL s).1.1 (compose selfL hL s).1.2).
    rewrite HwL, HwE, Hsz, Hw. by destruct (torch.cat _).
  - apply IH; [congruence..|]. by rewrite HwL', HwE', Hsz, Hw.
Qed.

(** C2.  On the same sequence of input states, at every call the
    [features] of the state built by a lazy [FrameStack] are, as a tensor
    value, the [raw] of the state built by an eager [FrameStack] of the same
    size (and the concatenation fails in the one when it fails in the
    other). *)
Theorem C2_lazy_features_are_eager_raw
    (aL aE : Agent) size hL0 hE0 hL hE selfL selfE calls :
  __init__ aL size true hL0 = (hL, Ok selfL) →
  __init__ aE size false hE0 = (hE, Ok selfE) →
  Forall2 lazy_matches_eager
          (trace agent_act selfL hL calls) (trace agent_act selfE hE calls).
Proof.
  intros (HwL & HszL & HlzL & _)%init_spec (HwE & HszE & HlzE & _)%init_spec.
  apply lazy_eager_agree; congruence.
Qed.

(** C3.  The [LazyState] handed over at one call is left as it is by the
    next call: its [features] are the same tensor after the next call as
    before, the list it holds is not written to, and the window of the
    [FrameStack] is by then another list object. *)
Theorem C3_lazy_state_is_a_snapshot self h state reward ls state' reward' :
  (compose self h state).2 = Ok (Lazy ls) →
  let r := act agent_act self h state reward in
  let r' := act agent_act r.1.1 r.1.2 state' reward' in
  LazyState_features r'.1.2 ls = LazyState_features r.1.2 ls ∧
  deref r'.1.2 (raw ls) = deref r.1.2 (raw ls) ∧
  _frames r'.1.1 ≠ raw ls.
Proof.
  intros Hls r r'.
  pose proof (compose_result self h state) as Hres.
  pose proof (compose_lookup self h state) as Hlook.
  pose proof (act_compose agent_act self h state reward) as (Hh & Hf & _).
  pose proof (act_spec agent_act r.1.1 r.1.2 state' reward') as (_ & _ & Hsub & Hnew & _).
  simpl in *. fold r in Hh, Hf. fold r' in Hsub, Hnew.
  rewrite Hls in Hres. unfold state_of in Hres.
  assert (Hraw : raw ls = _frames r.1.1).
  { destruct (_lazy self).
    - injection Hres as ->. by rewrite Hf.
    - by destruct (torch.cat _). }
  rewrite <- Hh, <- Hf, <- Hraw in Hlook.
  assert (Hderef : deref r'.1.2 (raw ls) = deref r.1.2 (raw ls)).
  { apply deref_weaken; [done|]. by eexists. }
  split_and!; [|done|].
  - unfold LazyState_features. by rewrite Hderef.
  - intros Heq. rewrite Heq in Hnew. congruence.
Qed.

Lemma Forall2_Forall_both {A B} (R : A → B → Prop) (P : A → Prop) (Q : B → Prop) l k :
  Forall2 R l k → Forall P l → Forall Q k →
  Forall2 (λ x y, R x y ∧ P x ∧ Q y) l k.
Proof.
  induction 1 as [|x y l k HR _ IH]; intros HP HQ; [constructor|].
  apply Forall_cons in HP as [Hx HP]. apply Forall_cons in HQ as [Hy HQ].
  constructor; [done|]. by apply IH.
Qed.

(** In either mode the length of the state of an event is the length of
    the first frame of its window. *)
Lemma trace_len (a : Agent) size lazy h0 h self calls :
  1 ≤ size →
  __init__ a size lazy h0 = (h, Ok self) →
  Forall (λ c, has_channel_axis (raw c.1)) calls →
  Forall (λ ev, ∃ f b, head (ev_window ev) = Some f ∧
                       In f (map (λ c, raw c.1) calls) ∧
                       torch.len f = Ok b ∧
                       ∀ c, ev.2 = Ok c → len ev.1.2 c = Ok b)
         (trace agent_act self h calls).
Proof.
  intros Hsize (Hw & Hsz & Hlz & _)%init_spec Hobs.
  set (obs := map (λ c : State elt Info * Reward, raw c.1) calls).
  set (R := λ x : Tensor elt, has_channel_axis x ∧ In x obs).
  eapply Forall2_Forall_l.
  - apply (trace_invariant agent_act
             (λ w, Forall R w ∧ (w = [] ∨ length w = Z.to_nat size)) R
             (λ w _, Forall R w ∧ length w = Z.to_nat size)).
    + rewrite Hsz. intros w x [HR Hlen] Hx.
      pose proof (next_window_Forall R size w x HR Hx).
      pose proof (next_window_full size w x Hsize Hlen). tauto.
    + rewrite Hw. split; [constructor | by left].
    + apply Forall_forall. intros c Hc. split.
      * rewrite Forall_forall in Hobs. by apply Hobs.
      * apply in_map_iff. exists c. split; [done|]. by apply list_elem_of_In.
  - apply Forall_forall. intros [s r] _ [[self1 h1] res] [[HR Hlen] Hres].
    unfold ev_window in *. simpl in *.
    destruct (window self1 h1) as [|f w] eqn:Hwin; [simpl in Hlen; lia|].
    pose proof HR as [[Hf Hin] _]%Forall_cons.
    destruct (channel_axis_len f Hf) as [b Hb].
    exists f, b. split_and!; try done. intros c Hc.
    rewrite Hres in Hc. unfold state_of in Hc. destruct (_lazy self).
    + injection Hc as <-. simpl. unfold LazyState_len. simpl.
      unfold window in Hwin. by rewrite Hwin.
    + destruct (torch.cat (f :: w)) as [t|e] eqn:Hcat; [|done].
      injection Hc as <-. simpl. unfold State_len. simpl.
      erewrite cat_len; [done| |done].
      eapply Forall_impl; [exact HR|]. by intros x [? _].
Qed.

(** C4.  For a window size of at least one and observations with a batch
    and a channel axis, run a lazy and an eager [FrameStack] on the same
    calls.  At every call the two windows have the same first frame [f], one
    of the observations, and the length of the state handed to the agent is,
    in the one mode as in the other, the batch-dimension size [b] of [f]:
    the size of the window does not enter. *)
Theorem C4_len_is_batch_size (aL aE : Agent) size hL0 hE0 hL hE selfL selfE calls :
  1 ≤ size →
  __init__ aL size true hL0 = (hL, Ok selfL) →
  __init__ aE size false hE0 = (hE, Ok selfE) →
  Forall (λ c, has_channel_axis (raw c.1)) calls →
  Forall2 (λ l e, ∃ f b, head (ev_window l) = Some f ∧ head (ev_window e) = Some f ∧
                         In f (map (λ c, raw c.1) calls) ∧
                         torch.len f = Ok b ∧
                         (∀ c, l.2 = Ok c → len l.1.2 c = Ok b) ∧
                         (∀ c, e.2 = Ok c → len e.1.2 c = Ok b))
          (trace agent_act selfL hL calls) (trace agent_act selfE hE calls).
Proof.
  intros Hsize HL HE Hobs.
  pose proof (trace_len aL size true hL0 hL selfL calls Hsize HL Hobs) as HlenL.
  pose proof (trace_len aE size false hE0 hE selfE calls Hsize HE Hobs) as HlenE.
  apply init_spec in HL as (HwL & HszL & _). apply init_spec in HE as (HwE & HszE & _).
  assert (Hagree : Forall2 (λ l e, ev_window l = ev_window e)
                     (trace agent_act selfL hL calls) (trace agent_act selfE hE calls)).
  { eapply Forall2_impl; [apply traces_agree|]; [congruence..| |by intros l e [? _]].
    clear. induction calls; by constructor. }
  eapply Forall2_impl; [exact (Forall2_Forall_both _ _ _ _ _ Hagree HlenL HlenE)|].
  intros l e (Hwin & (f & b & Hf & Hin & Hb & Hl) & (f' & b' & Hf' & _ & Hb' & He)).
  simpl in *. exists f, b. rewrite <- Hwin in Hf'.
  assert (f' = f) as -> by congruence. assert (b' = b) as -> by congruence.
  rewrite <- Hwin. done.
Qed.

(** C5.  When lines 13 to 21 build the state [c], [act] returns what the
    agent's [act] returns on [c] and the reward as it came in, and keeps the
    agent as that call leaves it. *)
Theorem C5_delegation self h state reward self1 h1 c :
  compose self h state = (self1, h1, Ok c) →
  let r := act agent_act self h state reward in
  r.2 = (agent_act h1 (agent self) c reward).2 ∧
  agent r.1.1 = (agent_act h1 (agent self) c reward).1.
Proof.
  intros Hc. pose proof (compose_spec self h state) as (_ & _ & Hag & _).
  unfold act. simpl in *. rewrite Hc in *. simpl in *. rewrite Hag.
  by destruct (agent_act h1 (agent self) c reward).
Qed.

(** C6.  In either mode the state handed to the agent carries the mask
    and the info of the incoming state. *)
Theorem C6_mask_info_pass_through self h state self1 h1 c :
  compose self h state = (self1, h1, Ok c) →
  mask_of c = mask state ∧ info_of c = info state.
Proof.
  intros Hc. pose proof (compose_result self h state) as Hres.
  simpl in Hres. rewrite Hc in Hres. simpl in Hres. unfold state_of in Hres.
  destruct (_lazy self).
  - by injection Hres as ->.
  - destruct (torch.cat _); [|done]. by injection Hres as ->.
Qed.


(** One call on an empty window with a size below one: the window is empty
    again. *)
Lemma empty_window_act self h state reward :
  _size self ≤ 0 → window self h = [] →
  let r := act agent_act self h state reward in
  window r.1.1 r.1.2 = [] ∧ _size r.1.1 = _size self ∧ _lazy r.1.1 = _lazy self.
Proof.
  intros Hsize Hw r.
  pose proof (act_spec agent_act self h state reward) as (Hsz & Hlz & _ & _ & Hw').
  simpl in *. fold r in Hsz, Hlz, Hw'. rewrite Hw in Hw'. simpl in Hw'.
  replace (Z.to_nat (_size self)) with 0%nat in Hw' by lia. done.
Qed.

(** In eager mode that call raises from the concatenation and leaves the
    agent as it was. *)
Lemma empty_window_act_eager self h state reward :
  _size self ≤ 0 → window self h = [] → _lazy self = false →
  let r := act agent_act self h state reward in
  r.2 = Raise RuntimeError ∧ agent r.1.1 = agent self.
Proof.
  intros Hsize Hw Hlz r.
  pose proof (compose_result self h state) as Hres.
  pose proof (compose_spec self h state) as (_ & _ & Hag & _ & _ & Hwc).
  simpl in *. rewrite Hwc, Hw, Hlz in Hres. simpl in Hres.
  replace (Z.to_nat (_size self)) with 0%nat in Hres by lia.
  unfold state_of in Hres. simpl in Hres.
  subst r. unfold act.
  destruct (compose self h state) as [[self1 h1] res]. simpl in *. by subst res.
Qed.

(** Through any number of calls the window stays empty, and in eager mode
    the agent stays as it was. *)
Lemma empty_window_acts self h calls :
  _size self ≤ 0 → window self h = [] →
  let s := acts agent_act self h calls in
  window s.1 s.2 = [] ∧ _size s.1 = _size self ∧ _lazy s.1 = _lazy self ∧
  (_lazy self = false → agent s.1 = agent self).
Proof.
  revert self h. induction calls as [|[st r] calls IH]; intros self h Hsize Hw; [done|].
  rewrite acts_cons.
  pose proof (empty_window_act self h st r Hsize Hw) as (Hw1 & Hsz1 & Hlz1).
  simpl in Hw1, Hsz1, Hlz1.
  destruct (IH (act agent_act self h st r).1.1 (act agent_act self h st r).1.2)
    as (Hw2 & Hsz2 & Hlz2 & Hag2); [by rewrite Hsz1|done|].
  simpl in *. split_and!; [done|congruence|congruence|].
  intros Hlz.
  pose proof (empty_window_act_eager self h st r Hsize Hw Hlz) as [_ Hag1].
  simpl in Hag1. rewrite Hag2 by congruence. done.
Qed.

(** C8, as the code has it.  Construction checks nothing and succeeds for
    every size.  For a size below one the window stays empty through every
    call.  In eager mode every call of [act] raises from the concatenation
    before the agent is reached: the agent is still as it was given to the
    constructor.  In lazy mode [act] raises nothing of its own: it hands the
    agent a state on the empty window and returns what the agent returns; the
    [features] and the length of that state raise when they are read. *)
Theorem C8_failure_is_deferred (a : Agent) size lazy h0 :
  ∃ h self,
    __init__ a size lazy h0 = (h, Ok self) ∧
    (size ≤ 0 →
     ∀ calls state reward,
       let s := acts agent_act self h calls in
       let out := compose s.1 s.2 state in
       let r := act agent_act s.1 s.2 state reward in
       window s.1 s.2 = [] ∧ window r.1.1 r.1.2 = [] ∧
       if lazy
       then ∃ ls, out.2 = Ok (Lazy ls) ∧
                  r.2 = (agent_act out.1.2 (agent s.1) (Lazy ls) reward).2 ∧
                  LazyState_features r.1.2 ls = Raise RuntimeError ∧
                  LazyState_len r.1.2 ls = Raise IndexError
       else r.2 = Raise RuntimeError ∧ agent r.1.1 = a ∧ agent s.1 = a).
Proof.
  destruct (__init__ a size lazy h0) as [h [self|e]] eqn:Hinit;
    [|unfold __init__ in Hinit; by destruct (alloc h0 [])].
  exists h, self. split; [done|].
  apply init_spec in Hinit as (Hw & Hsz & Hlz & Hag).
  intros Hsize calls state reward s out r.
  destruct (empty_window_acts self h calls) as (Hws & Hszs & Hlzs & Hags);
    [by rewrite Hsz|done|]. fold s in Hws, Hszs, Hlzs, Hags.
  assert (Hsize' : _size s.1 ≤ 0) by (rewrite Hszs, Hsz; done).
  pose proof (empty_window_act s.1 s.2 state reward Hsize' Hws) as (Hwr & _).
  simpl in Hwr. fold r in Hwr.
  split; [done|]. split; [done|].
  destruct lazy.
  - pose proof (compose_result s.1 s.2 state) as Hres.
    pose proof (compose_spec s.1 s.2 state) as (_ & _ & Hagc & _).
    pose proof (act_compose agent_act s.1 s.2 state reward) as (Hh & Hf & _).
    simpl in Hres, Hagc, Hh, Hf. fold out in Hres, Hagc, Hh, Hf. fold r in Hh, Hf.
    rewrite Hlzs, Hlz in Hres. unfold state_of in Hres.
    eexists. split; [exact Hres|]. split.
    + subst r. unfold act. fold out. destruct out as [[self1 h1] res].
      simpl in *. subst res. rewrite Hagc.
      by destruct (agent_act h1 (agent s.1) _ reward).
    + unfold LazyState_features, LazyState_len. simpl.
      rewrite <- Hf. unfold window in Hwr. by rewrite Hwr.
  - assert (Hlz' : _lazy s.1 = false) by congruence.
    pose proof (empty_window_act_eager s.1 s.2 state reward Hsize' Hws Hlz') as [Hr Hagr].
    simpl in Hr, Hagr. fold r in Hr, Hagr.
    assert (agent s.1 = a) by (rewrite Hags; done).
    split_and!; [done|congruence|done].
Qed.

(** C9.  Two sequences of calls that differ at most in the masks of their
    states give, from the same [FrameStack], the same windows and the same
    features at every call.  In particular a call whose state has mask 0
    slides a window that is not empty like any other call, and so does the
    call after it. *)
Theorem C9_window_ignores_mask self h calls1 calls2 :
  Forall2 same_but_mask calls1 calls2 →
  Forall2 (λ e1 e2, ev_window e1 = ev_window e2 ∧ ev_features e1 = ev_features e2)
          (trace agent_act self h calls1) (trace agent_act self h calls2) ∧
  ∀ state reward state' reward',
    mask state = 0 → window self h ≠ [] →
    let r := act agent_act self h state reward in
    let r' := act agent_act r.1.1 r.1.2 state' reward' in
    window r.1.1 r.1.2 = drop 1 (window self h) ++ [raw state] ∧
    window r'.1.1 r'.1.2 = drop 1 (drop 1 (window self h) ++ [raw state]) ++ [raw state'].
Proof.
  intros Hcalls. split.
  - apply traces_agree; [done..|].
    eapply Forall2_impl; [exact Hcalls|]. by intros c1 c2 (? & _).
  - intros state reward state' reward' _ Hne r r'.
    pose proof (act_spec agent_act self h state reward) as (Hsz & _ & _ & _ & Hw).
    pose proof (act_spec agent_act r.1.1 r.1.2 state' reward') as (_ & _ & _ & _ & Hw').
    simpl in *. fold r in Hsz, Hw. fold r' in Hw'.
    rewrite next_window_nonempty in Hw by done.
    rewrite Hw', Hw. split; [done|].
    apply next_window_nonempty. by destruct (drop 1 (window self h)).
Qed.


End claims.

(** ** Further properties of [FrameStack] and [LazyState] *)

Section more_window_values.
Context {elt : Type}.
Implicit Types (w xs : list (Tensor elt)) (x : Tensor elt) (size : Z).

(** Of the [n] copies of the first observation, [n - k] are left after [k]
    observations. *)
Lemma last_n_padding (n : nat) x xs :
  last_n n (replicate n x ++ xs) =
  replicate (n - S (length xs)) x ++ last_n n (x :: xs).
Proof.
  unfold last_n. rewrite length_app, length_replicate. simpl.
  replace (n + length xs - n)%nat with (length xs) by lia.
  destruct (decide (length xs < n)%nat) as [Hlt|Hge].
  - rewrite drop_app_le by (rewrite length_replicate; lia).
    rewrite drop_replicate.
    replace (S (length xs) - n)%nat with 0%nat by lia. simpl.
    replace (n - length xs)%nat with (S (n - S (length xs))) by lia.
    rewrite replicate_S_end, <- app_assoc. done.
  - replace (n - S (length xs))%nat with 0%nat by lia. simpl.
    rewrite drop_app_ge by (rewrite length_replicate; lia).
    rewrite length_replicate.
    replace (S (length xs) - n)%nat with (S (length xs - n)) by lia. done.
Qed.
End more_window_values.

Section more_cat.
Context {elt : Type}.
Implicit Types (t f x : Tensor elt) (ts g : list (Tensor elt)) (b : nat) (tl : list nat).

Lemma fits_channel_axis b tl t : fits b tl t → has_channel_axis t.
Proof. intros [c Hc]. unfold has_channel_axis. rewrite Hc. simpl. lia. Qed.

Lemma fits_same_but_dim1 b tl f t :
  fits b tl f → fits b tl t → torch.same_but_dim1 (torch.shape f) (torch.shape t) = true.
Proof. intros [c ->] [c' ->]. simpl. by apply bool_decide_eq_true_2. Qed.

Lemma not_fits_same_but_dim1 b tl f x :
  fits b tl f → has_channel_axis x → ¬ fits b tl x →
  torch.same_but_dim1 (torch.shape f) (torch.shape x) = false ∧
  torch.same_but_dim1 (torch.shape x) (torch.shape f) = false.
Proof.
  intros [c Hf] Hx Hbad. rewrite Hf. unfold has_channel_axis, fits in *.
  destruct (torch.shape x) as [|b' [|c' tl']]; simpl in *; try lia.
  split; apply bool_decide_eq_false_2; intros [-> ->]; apply Hbad; by eexists.
Qed.

Lemma forallb_true_Forall {A} (p : A → bool) (l : list A) :
  Forall (λ y, p y = true) l → forallb p l = true.
Proof. induction 1 as [|y l Hy _ IH]; simpl; [done|]. by rewrite Hy, IH. Qed.

Lemma forallb_false_elem {A} (p : A → bool) (l : list A) y :
  y ∈ l → p y = false → forallb p l = false.
Proof.
  induction 1 as [y l|y z l _ IH]; simpl; intros Hy.
  - by rewrite Hy.
  - rewrite IH by done. apply andb_false_r.
Qed.

Lemma row_length b c tl t (j : nat) :
  torch.shape t = b :: c :: tl → torch.wf t → (j < b)%nat →
  length (torch.row (torch.numel tl) j t) = (c * torch.numel tl)%nat.
Proof.
  unfold torch.wf, torch.row, torch.channels. intros Hsh Hwf Hj.
  rewrite Hsh in *. simpl in *.
  rewrite length_take, length_drop. nia.
Qed.

Lemma rows_length b tl ts (j : nat) :
  Forall (fits b tl) ts → Forall torch.wf ts → (j < b)%nat →
  length (concat (map (torch.row (torch.numel tl) j) ts)) =
  (sum_list (map torch.channels ts) * torch.numel tl)%nat.
Proof.
  intros Hfit Hwf Hj. induction Hfit as [|t ts [c Hc] _ IH]; simpl; [done|].
  apply Forall_cons in Hwf as [Ht Hts].
  rewrite length_app, IH by done. rewrite (row_length b c tl) by done.
  unfold torch.channels at 2. rewrite Hc. simpl. lia.
Qed.

Lemma concat_map_length {A B} (F : A → list B) (l : list A) (n : nat) :
  (∀ y, y ∈ l → length (F y) = n) →
  length (concat (map F l)) = (length l * n)%nat.
Proof.
  induction l as [|y l IH]; intros HF; simpl; [done|].
  rewrite length_app, HF, IH; [done| |by left].
  intros z Hz. apply HF. by right.
Qed.

(** Tensors that agree but for their channel counts are concatenated: the
    channel counts add up, and well-formed tensors give a well-formed one. *)
Lemma cat_fits b tl ts :
  ts ≠ [] → Forall (fits b tl) ts →
  ∃ t, torch.cat ts = Ok t ∧
       torch.shape t = b :: sum_list (map torch.channels ts) :: tl ∧
       (Forall torch.wf ts → torch.wf t).
Proof.
  intros Hne Hall. destruct ts as [|f ts]; [done|].
  rewrite cat_channel_axis
    by (eapply Forall_impl; [exact Hall|]; apply (fits_channel_axis b tl)).
  pose proof Hall as [Hf Hts]%Forall_cons.
  destruct Hf as [c Hc]. rewrite Hc. rewrite <- Hc.
  rewrite forallb_true_Forall.
  - eexists. split; [done|]. split; [done|].
    intros Hwf. unfold torch.wf. cbn [torch.data torch.shape].
    rewrite (concat_map_length _ _ (sum_list (map torch.channels (f :: ts)) * torch.numel tl)).
    + rewrite length_seq. simpl. lia.
    + intros j Hj%elem_of_seq. apply (rows_length b); [done..|lia].
  - eapply Forall_impl; [exact Hts|]. intros t Ht.
    apply (fits_same_but_dim1 b tl); [by exists c | done].
Qed.

(** A window that holds, among tensors that agree, one that does not, is
    not concatenated. *)
Lemma cat_mixed b tl g1 x g2 :
  Forall (fits b tl) g1 → Forall (fits b tl) g2 → g1 ++ g2 ≠ [] →
  has_channel_axis x → ¬ fits b tl x →
  torch.cat (g1 ++ x :: g2) = Raise RuntimeError.
Proof.
  intros H1 H2 Hne Hx Hbad.
  assert (Hall : Forall has_channel_axis (g1 ++ x :: g2)).
  { apply Forall_app. split; [|constructor; [done|]];
      (eapply Forall_impl; [eassumption|]; apply (fits_channel_axis b tl)). }
  destruct g1 as [|f g1]; cbn [app] in *.
  - destruct g2 as [|f g2]; [done|].
    rewrite cat_channel_axis by done.
    apply Forall_cons in H2 as [Hf _].
    destruct (not_fits_same_but_dim1 b tl f x Hf Hx Hbad) as [_ Hxf].
    unfold has_channel_axis in Hx.
    destruct (torch.shape x) as [|b' [|c' tl']] eqn:Hsh; simpl in Hx; try lia.
    rewrite (forallb_false_elem _ _ f); [done|by left|done].
  - rewrite cat_channel_axis by done.
    apply Forall_cons in H1 as [Hf _].
    destruct (not_fits_same_but_dim1 b tl f x Hf Hx Hbad) as [Hfx _].
    destruct Hf as [c Hc]. rewrite Hc. rewrite <- Hc.
    rewrite (forallb_false_elem _ _ x); [done| |done].
    apply elem_of_app. right. by left.
Qed.
End more_cat.

Section more_calls.
Context {elt Info Reward Action Agent : Type}.
Variable agent_act :
  gmap loc (list (Tensor elt)) → Agent → composite elt Info → Reward → Agent * result Action.
Implicit Types (h : gmap loc (list (Tensor elt))) (self : FrameStack Agent).
Implicit Types (state : State elt Info) (reward : Reward).
Implicit Types (calls later : list (State elt Info * Reward)).

(** No call writes to a list object that exists. *)
Lemma acts_subseteq self h calls : h ⊆ (acts agent_act self h calls).2.
Proof.
  revert self h. induction calls as [|[s r] calls IH]; intros; [done|].
  rewrite acts_cons. etrans; [|apply IH].
  by pose proof (act_spec agent_act self h s r) as (_ & _ & Hsub & _).
Qed.

(** After a call, the window is a list object that did not exist before. *)
Lemma acts_frames_fresh self h calls :
  calls ≠ [] → h !! _frames (acts agent_act self h calls).1 = None.
Proof.
  revert self h. induction calls as [|[s r] calls IH]; intros self h Hne; [done|].
  rewrite acts_cons.
  pose proof (act_spec agent_act self h s r) as (_ & _ & Hsub & Hnew & _).
  simpl in Hsub, Hnew. destruct calls as [|c calls]; [done|].
  eapply fresh_weaken; [exact Hsub|]. by apply IH.
Qed.

(** X1.  A [LazyState] handed over at one call keeps its [features] and its
    length through any number of later calls, and as soon as one more call
    is made the window of the [FrameStack] is another list object. *)
Theorem lazy_state_outlives_calls self h state reward ls later :
  (compose self h state).2 = Ok (Lazy ls) →
  let r := act agent_act self h state reward in
  let r' := acts agent_act r.1.1 r.1.2 later in
  LazyState_features r'.2 ls = LazyState_features r.1.2 ls ∧
  LazyState_len r'.2 ls = LazyState_len r.1.2 ls ∧
  (later ≠ [] → _frames r'.1 ≠ raw ls).
Proof.
  intros Hls r r'.
  pose proof (lazy_state_shares_window self h state ls Hls) as Hraw.
  pose proof (compose_lookup self h state) as Hlook.
  pose proof (act_compose agent_act self h state reward) as (Hh & Hf & _).
  simpl in *. fold r in Hh, Hf. rewrite <- Hh, <- Hraw in Hlook.
  assert (Hderef : deref r'.2 (raw ls) = deref r.1.2 (raw ls)).
  { apply deref_weaken; [apply acts_subseteq | by eexists]. }
  unfold LazyState_features, LazyState_len. rewrite Hderef.
  split_and!; [done..|].
  intros Hne Heq.
  pose proof (acts_frames_fresh r.1.1 r.1.2 later Hne) as Hnew.
  fold r' in Hnew. rewrite Heq in Hnew. congruence.
Qed.

(** X2.  After [k] calls of which the first carries the observation [o],
    the window is [size - k] copies of [o] followed by the last [size]
    observations: the copies are gone once [size] calls have been made. *)
Theorem window_padding (a : Agent) size lazy h0 h self calls first :
  1 ≤ size →
  __init__ a size lazy h0 = (h, Ok self) →
  head calls = Some first →
  let r := acts agent_act self h calls in
  window r.1 r.2 =
  replicate (Z.to_nat size - length calls) (raw first.1) ++
  last_n (Z.to_nat size) (map (λ c, raw c.1) calls).
Proof.
  intros Hsize (Hw & Hsz & _)%init_spec Hhead r. subst r.
  destruct calls as [|c calls]; [done|]. injection Hhead as ->.
  rewrite acts_window, Hw, Hsz. simpl map.
  rewrite foldl_next_window by done.
  rewrite last_n_padding. simpl length. by rewrite length_map.
Qed.

(** X3.  In lazy mode [act] builds its state and reaches the agent whatever
    the observation and the window are: nothing is concatenated, and the
    result of [act] is the result of the agent. *)
Theorem lazy_act_always_delegates self h state reward :
  _lazy self = true →
  let out := compose self h state in
  let ls := mkState (_frames out.1.1) (mask state) (info state) in
  out.2 = Ok (Lazy ls) ∧
  (act agent_act self h state reward).2 =
  (agent_act out.1.2 (agent self) (Lazy ls) reward).2.
Proof.
  intros Hlazy out ls.
  pose proof (compose_result self h state) as Hres.
  pose proof (compose_spec self h state) as (_ & _ & Hag & _).
  simpl in *. fold out in Hres, Hag. rewrite Hlazy in Hres.
  split; [exact Hres|].
  unfold act. fold out. destruct out as [[self1 h1] res]. simpl in *.
  subst res. rewrite Hag. fold ls.
  by destruct (agent_act h1 (agent self) (Lazy ls) reward).
Qed.

(** X4.  When the concatenation fails, [act] raises that exception, the
    agent is not reached and keeps its state, and the window has slid all
    the same. *)
Theorem failed_act_keeps_the_slide self h state reward e :
  (compose self h state).2 = Raise e →
  let r := act agent_act self h state reward in
  r.2 = Raise e ∧
  agent r.1.1 = agent self ∧
  window r.1.1 r.1.2 = next_window (_size self) (window self h) (raw state).
Proof.
  intros He r.
  pose proof (act_spec agent_act self h state reward) as (_ & _ & _ & _ & Hw).
  pose proof (compose_spec self h state) as (_ & _ & Hag & _).
  simpl in *. split_and!; [by apply act_raise| |done].
  subst r. unfold act.
  destruct (compose self h state) as [[self1 h1] [c|e']]; simpl in *; [done|].
  done.
Qed.
End more_calls.

Section eager_concatenation.
Context {elt Info Reward Action Agent : Type}.
Variable agent_act :
  gmap loc (list (Tensor elt)) → Agent → composite elt Info → Reward → Agent * result Action.
Implicit Types (h : gmap loc (list (Tensor elt))) (self : FrameStack Agent).
Implicit Types (state : State elt Info) (reward : Reward).
Implicit Types (calls pre post : list (State elt Info * Reward)).
Implicit Types (bad : State elt Info * Reward) (b : nat) (tl : list nat).

Lemma acts_app self h calls post :
  acts agent_act self h (calls ++ post) =
  acts agent_act (acts agent_act self h calls).1 (acts agent_act self h calls).2 post.
Proof.
  revert self h. induction calls as [|[s r] calls IH]; intros; [done|].
  rewrite <- app_comm_cons, !acts_cons. apply IH.
Qed.

Lemma trace_app self h calls post :
  trace agent_act self h (calls ++ post) =
  trace agent_act self h calls ++
  trace agent_act (acts agent_act self h calls).1 (acts agent_act self h calls).2 post.
Proof.
  revert self h. induction calls as [|[s r] calls IH]; intros; [done|].
  rewrite <- app_comm_cons, !trace_cons, acts_cons, IH. done.
Qed.

Lemma acts_fields self h calls :
  _size (acts agent_act self h calls).1 = _size self ∧
  _lazy (acts agent_act self h calls).1 = _lazy self.
Proof.
  revert self h. induction calls as [|[s r] calls IH]; intros; [done|].
  rewrite acts_cons.
  pose proof (act_spec agent_act self h s r) as (Hsz & Hlz & _). simpl in *.
  destruct (IH (act agent_act self h s r).1.1 (act agent_act self h s r).1.2) as [-> ->].
  done.
Qed.

Lemma acts_invariant (I : list (Tensor elt) → Prop) (Q : Tensor elt → Prop) self h calls :
  (∀ w x, I w → Q x → I (next_window (_size self) w x)) →
  I (window self h) →
  Forall (λ c, Q (raw c.1)) calls →
  I (window (acts agent_act self h calls).1 (acts agent_act self h calls).2).
Proof.
  intros Hstep HI HQ. rewrite acts_window.
  revert HI. generalize (window self h).
  induction HQ as [|c calls Hc _ IH]; intros w HI; [done|].
  simpl. apply IH. by apply Hstep.
Qed.

(** In eager mode the state is the concatenation of the window as the
    update leaves it. *)
Lemma compose_eager self h state :
  _lazy self = false →
  (compose self h state).2 =
  match torch.cat (next_window (_size self) (window self h) (raw state)) with
  | Ok t => Ok (Eager (mkState t (mask state) (info state)))
  | Raise e => Raise e
  end.
Proof.
  intros Hlz. pose proof (compose_result self h state) as Hres.
  pose proof (compose_spec self h state) as (_ & _ & _ & _ & _ & Hw).
  simpl in *. by rewrite Hres, Hlz, Hw.
Qed.

(** From a window of tensors that agree, holding [size] frames or none,
    observations that agree are concatenated at every call. *)
Lemma eager_trace_fits (R : Tensor elt → Prop) b tl self h calls :
  (∀ x, R x → fits b tl x) →
  1 ≤ _size self → _lazy self = false →
  Forall R (window self h) →
  window self h = [] ∨ length (window self h) = Z.to_nat (_size self) →
  Forall (λ c, R (raw c.1)) calls →
  Forall (λ ev, Forall R (ev_window ev) ∧
                ∃ st, ev.2 = Ok (Eager st) ∧
                      torch.shape (raw st) =
                      b :: sum_list (map torch.channels (ev_window ev)) :: tl ∧
                      (Forall torch.wf (ev_window ev) → torch.wf (raw st)))
         (trace agent_act self h calls).
Proof.
  intros HR Hsize Hlz Hwin Hlen Hcalls.
  eapply Forall2_Forall_l.
  - apply (trace_invariant agent_act
             (λ w, Forall R w ∧ (w = [] ∨ length w = Z.to_nat (_size self))) R
             (λ w _, Forall R w ∧ length w = Z.to_nat (_size self))).
    + intros w x [HRw Hl] Hx.
      pose proof (next_window_Forall R (_size self) w x HRw Hx).
      pose proof (next_window_full (_size self) w x Hsize Hl). tauto.
    + done.
    + done.
  - apply Forall_forall. intros [s r] _ [[self1 h1] res] [[HRw Hl] Hres].
    unfold ev_window in *. simpl in *. split; [done|].
    rewrite Hlz in Hres. unfold state_of in Hres.
    destruct (cat_fits b tl (window self1 h1)) as (t & Hcat & Hsh & Hwf).
    { intros Hnil. rewrite Hnil in Hl. simpl in Hl. lia. }
    { eapply Forall_impl; [exact HRw|]. exact HR. }
    rewrite Hcat in Hres. eexists. split; [exact Hres|]. done.
Qed.

(** X6.  In eager mode, for observations that agree on the batch size [b]
    and on the dimensions [tl] below the channel axis, whatever their channel
    counts, the state is built at every call: its [raw] has the shape [b],
    the sum of the channel counts of the frames of the window, [tl], and is
    well formed when the observations are. *)
Theorem eager_raw_adds_channels (a : Agent) size h0 h self calls b tl :
  1 ≤ size →
  __init__ a size false h0 = (h, Ok self) →
  Forall (λ c, fits b tl (raw c.1) ∧ torch.wf (raw c.1)) calls →
  Forall (λ ev, ∃ st, ev.2 = Ok (Eager st) ∧
                      torch.shape (raw st) =
                      b :: sum_list (map torch.channels (ev_window ev)) :: tl ∧
                      torch.wf (raw st))
         (trace agent_act self h calls).
Proof.
  intros Hsize (Hw & Hsz & Hlz & _)%init_spec Hcalls.
  eapply Forall_impl.
  - apply (eager_trace_fits (λ x, fits b tl x ∧ torch.wf x) b tl self h calls);
      [by intros x [? _] | by rewrite Hsz | done | by rewrite Hw | by left | done].
  - intros ev [HR (st & Hst & Hsh & Hwf)]. exists st. split_and!; [done..|].
    apply Hwf. eapply Forall_impl; [exact HR|]. by intros x [_ ?].
Qed.

(** From a window that holds one tensor [x] that does not agree with the
    others, the calls fail until [x] has left the window, and succeed from
    then on. *)
Lemma dirty_trace b tl self h (g1 g2 : list (Tensor elt)) (x : Tensor elt) post :
  1 ≤ _size self → _lazy self = false →
  window self h = g1 ++ x :: g2 →
  length (g1 ++ x :: g2) = Z.to_nat (_size self) →
  Forall (fits b tl) g1 → Forall (fits b tl) g2 →
  has_channel_axis x → ¬ fits b tl x →
  Forall (λ c, fits b tl (raw c.1)) post →
  Forall (λ ev, ev.2 = Raise RuntimeError)
         (take (length g1) (trace agent_act self h post)) ∧
  Forall (λ ev, ∃ st, ev.2 = Ok (Eager st))
         (drop (length g1) (trace agent_act self h post)).
Proof.
  intros Hsize Hlz Hwin Hlen H1 H2 Hx Hbad Hpost.
  revert self h g1 g2 Hsize Hlz Hwin Hlen H1 H2 Hpost.
  induction post as [|[s r] post IH]; intros.
  { simpl. rewrite take_nil, drop_nil. split; constructor. }
  apply Forall_cons in Hpost as [Hs Hpost]. simpl in Hs. rewrite trace_cons.
  pose proof (compose_eager self h s Hlz) as Hres.
  pose proof (act_spec agent_act self h s r) as (Hsz & Hlz' & _ & _ & Hw').
  simpl in Hsz, Hlz', Hw'. rewrite Hwin in Hres, Hw'.
  destruct g1 as [|g g1]; cbn [app length take drop] in *.
  - rewrite next_window_nonempty in Hres, Hw' by done. simpl in Hres, Hw'.
    rewrite drop_0 in Hres, Hw'.
    assert (Hall : Forall (fits b tl) (g2 ++ [raw s])).
    { apply Forall_app_2; [done|by repeat constructor]. }
    split; [constructor|]. constructor.
    + destruct (cat_fits b tl (g2 ++ [raw s])) as (t & Hcat & _);
        [by destruct g2 | done |].
      rewrite Hcat in Hres. by eexists.
    + eapply Forall_impl.
      * apply (eager_trace_fits (fits b tl) b tl); try done.
        -- by rewrite Hsz.
        -- by rewrite Hlz'.
        -- by rewrite Hw'.
        -- right. rewrite Hw', Hsz, length_app. simpl in *. lia.
      * by intros ev [_ (st & Hst & _)]; exists st.
  - rewrite next_window_nonempty in Hres, Hw' by done. simpl in Hres, Hw'.
    rewrite drop_0, <- app_assoc in Hres, Hw'. simpl in Hres, Hw'.
    apply Forall_cons in H1 as [_ H1].
    assert (H2' : Forall (fits b tl) (g2 ++ [raw s])).
    { apply Forall_app_2; [done|by repeat constructor]. }
    assert (Hne : g1 ++ g2 ++ [raw s] ≠ []).
    { intros Hnil. apply (f_equal length) in Hnil.
      rewrite !length_app in Hnil. simpl in Hnil. lia. }
    rewrite (cat_mixed b tl g1 x (g2 ++ [raw s]) H1 H2' Hne Hx Hbad) in Hres.
    assert (Hlen' : length (g1 ++ x :: g2 ++ [raw s]) =
                    Z.to_nat (_size (act agent_act self h s r).1.1)).
    { rewrite Hsz. rewrite !length_app in *. simpl in *. rewrite length_app. simpl. lia. }
    destruct (IH (act agent_act self h s r).1.1 (act agent_act self h s r).1.2
                 g1 (g2 ++ [raw s])) as [Hfail Hok]; [by rewrite Hsz|by rewrite Hlz'|done..|].
    split; [by constructor|done].
Qed.

(** X7.  In eager mode with a window of at least two frames, one
    observation [bad] that does not agree with the others, coming after
    observations that do, makes exactly [size] calls in a row fail: its own
    call and the [size - 1] calls after it, for as long as it is a frame of
    the window.  The calls before it and the calls after those succeed. *)
Theorem mismatch_fails_size_calls (a : Agent) size h0 h self pre bad post b tl :
  2 ≤ size →
  __init__ a size false h0 = (h, Ok self) →
  pre ≠ [] →
  Forall (λ c, fits b tl (raw c.1)) pre →
  has_channel_axis (raw bad.1) → ¬ fits b tl (raw bad.1) →
  Forall (λ c, fits b tl (raw c.1)) post →
  let T := trace agent_act self h (pre ++ bad :: post) in
  Forall (λ ev, ∃ st, ev.2 = Ok (Eager st)) (take (length pre) T) ∧
  Forall (λ ev, ev.2 = Raise RuntimeError) (take (Z.to_nat size) (drop (length pre) T)) ∧
  Forall (λ ev, ∃ st, ev.2 = Ok (Eager st)) (drop (length pre + Z.to_nat size) T).
Proof.
  intros Hsize Hinit Hne Hpre Hx Hbad Hpost T. subst T.
  apply init_spec in Hinit as (Hw & Hsz & Hlz & _).
  rewrite trace_app, <- drop_drop.
  rewrite take_app_length', drop_app_length' by (by rewrite trace_length).
  set (self1 := (acts agent_act self h pre).1).
  set (h1 := (acts agent_act self h pre).2).
  destruct (acts_fields self h pre) as [Hsz1 Hlz1]. fold self1 in Hsz1, Hlz1.
  assert (Hfit1 : Forall (fits b tl) (window self1 h1)).
  { apply (acts_invariant (Forall (fits b tl)) (fits b tl)); [|by rewrite Hw|done].
    intros w x. apply next_window_Forall. }
  assert (Hlen1 : length (window self1 h1) = Z.to_nat size).
  { unfold self1, h1. rewrite acts_window, Hw, Hsz.
    destruct pre as [|c pre]; [done|]. simpl map.
    rewrite foldl_next_window by lia. apply last_n_length.
    rewrite length_app, length_replicate. lia. }
  split.
  { eapply Forall_impl.
    - apply (eager_trace_fits (fits b tl) b tl self h pre);
        [done | lia | done | by rewrite Hw | by left | done].
    - by intros ev [_ (st & Hst & _)]; exists st. }
  destruct bad as [sx rx]. simpl in Hx, Hbad. rewrite trace_cons.
  pose proof (compose_eager self1 h1 sx) as Hres.
  pose proof (act_spec agent_act self1 h1 sx rx) as (Hsz2 & Hlz2 & _ & _ & Hw2).
  simpl in Hsz2, Hlz2, Hw2.
  destruct (window self1 h1) as [|g w1] eqn:Hwin1; [simpl in Hlen1; lia|].
  rewrite next_window_nonempty in Hres, Hw2 by done.
  simpl in Hres, Hw2, Hlen1. rewrite drop_0 in Hres, Hw2.
  apply Forall_cons in Hfit1 as [_ Hfit1].
  rewrite (cat_mixed b tl w1 (raw sx) []) in Hres; try done;
    [|by rewrite app_nil_r; destruct w1; [simpl in Hlen1; lia|]].
  destruct (dirty_trace b tl (act agent_act self1 h1 sx rx).1.1
              (act agent_act self1 h1 sx rx).1.2 w1 [] (raw sx) post)
    as [Hfail Hok]; try done.
  - rewrite Hsz2, Hsz1, Hsz. lia.
  - by rewrite Hlz2, Hlz1.
  - rewrite Hsz2, Hsz1, Hsz, length_app. simpl. lia.
  - replace (Z.to_nat size) with (S (length w1)) by lia.
    cbn [take drop]. split; [|done].
    constructor; [|done]. apply Hres. by rewrite Hlz1.
Qed.
End eager_concatenation.

Section more_lazy_state.
Context {elt Info : Type}.
Implicit Types (h : gmap loc (list (Tensor elt))) (ls : LazyState Info).

(** X5.  For a [LazyState] on frames with a channel axis, whenever the
    [features] can be computed the length of the state is the length of its
    [features]. *)
Theorem lazy_len_is_len_of_features h ls t :
  Forall has_channel_axis (deref h (raw ls)) →
  LazyState_features h ls = Ok t →
  LazyState_len h ls = torch.len t.
Proof.
  unfold LazyState_features, LazyState_len. intros Hall Hcat.
  destruct (deref h (raw ls)) as [|f w]; [done|].
  symmetry. by eapply cat_len.
Qed.
End more_lazy_state.

(** ** The training driver *)

Section monad.
Context {W E : Type}.
Import run.

Lemma bind_Done {A B} (m : M W E A) (k : A → M W E B) w w' a :
  m w = (w', Done a) → bind m k w = k a w'.
Proof. unfold bind. by intros ->. Qed.

Lemma bind_Throw {A B} (m : M W E A) (k : A → M W E B) w w' e :
  m w = (w', Throw e) → bind m k w = (w', Throw e).
Proof. unfold bind. by intros ->. Qed.

Lemma bind_inv {A B} (m : M W E A) (k : A → M W E B) w w2 o :
  bind m k w = (w2, o) →
  (∃ w1 a, m w = (w1, Done a) ∧ k a w1 = (w2, o)) ∨
  (∃ e, m w = (w2, Throw e) ∧ o = Throw e).
Proof.
  unfold bind. destruct (m w) as [w1 [a|e]]; intros Hk.
  - left. by exists w1, a.
  - right. exists e. by injection Hk as -> <-.
Qed.

Lemma call_not_lookup_error {A} (f : W → W * (A + E)) w :
  ¬ lookup_error (call f w).2.
Proof.
  unfold call, lookup_error. destruct (f w) as [w' [a|e]]; simpl; by intros [|].
Qed.

Lemma ret_not_lookup_error {A} (a : A) (w : W) :
  ¬ lookup_error (ret (E:=E) a w).2.
Proof. unfold lookup_error. simpl. by intros [|]. Qed.

Lemma bind_not_lookup_error {A B} (m : M W E A) (k : A → M W E B) w :
  ¬ lookup_error (m w).2 →
  (∀ a w', ¬ lookup_error (k a w').2) →
  ¬ lookup_error (bind m k w).2.
Proof.
  unfold bind. destruct (m w) as [w' [a|e]]; simpl; intros Hm Hk; [apply Hk|].
  unfold lookup_error in *. intros [[= ->]|[= ->]]; apply Hm; auto.
Qed.
End monad.

Section lookups.
Context {Val : Type} `{EqDecision Val}.
Import run.
Implicit Types (d : list (Z * Z * Val)) (best : Val).

(** The action found is the key of the first item whose state is the best
    state; none is found when no state is the best state. *)
Lemma find_action_spec d best :
  match find_action d best with
  | None => best ∉ dict_values d
  | Some a => ∃ front back, d = front ++ (a, best) :: back ∧ best ∉ dict_values front
  end.
Proof.
  induction d as [|[a v] d IH]; simpl.
  - apply not_elem_of_nil.
  - destruct (decide (v = best)) as [->|Hne].
    + exists [], d. split; [done|]. apply not_elem_of_nil.
    + destruct (find_action d best) as [a'|].
      * destruct IH as (front & back & -> & Hfront).
        exists ((a, v) :: front), back. split; [done|].
        simpl. apply not_elem_of_cons. split; [congruence|done].
      * apply not_elem_of_cons. split; [congruence|done].
Qed.

(** The action found is a key of the dict. *)
Lemma find_action_getitem d best a :
  find_action d best = Some a → is_Some (dict_getitem d a).
Proof.
  induction d as [|[a' v] d IH]; simpl; [done|].
  destruct (decide (v = best)) as [->|Hne].
  - intros [= ->]. rewrite decide_True by done. by eexists.
  - intros Hf. destruct (decide (a' = a)); [by eexists|by apply IH].
Qed.

(** With keys that are all different, the value under the action found is
    the best state. *)
Lemma find_action_getitem_best d best a :
  NoDup (map fst d) → find_action d best = Some a → dict_getitem d a = Some best.
Proof.
  induction d as [|[a' v] d IH]; simpl; [done|].
  intros [Hnotin Hnodup]%NoDup_cons.
  destruct (decide (v = best)) as [->|Hne].
  - intros [= ->]. by rewrite decide_True.
  - intros Hf. destruct (decide (a' = a)) as [->|Hne'].
    + exfalso. apply Hnotin.
      pose proof (find_action_spec d best) as Hspec. rewrite Hf in Hspec.
      destruct Hspec as (front & back & -> & _).
      rewrite map_app. apply elem_of_app. right. simpl. by left.
    + by apply IH.
Qed.

Lemma list_getitem_in_range {A} (l : list A) (i : Z) :
  - Z.of_nat (length l) ≤ i < Z.of_nat (length l) → is_Some (list_getitem l i).
Proof.
  intros Hi. unfold list_getitem.
  destruct (i <? 0) eqn:Hneg; [apply Z.ltb_lt in Hneg|apply Z.ltb_ge in Hneg].
  - rewrite (proj2 (Z.ltb_ge _ _)) by lia. apply lookup_lt_is_Some. lia.
  - rewrite (proj2 (Z.ltb_ge _ _)) by lia. apply lookup_lt_is_Some. lia.
Qed.

(** The index -1 is the last element. *)
Lemma list_getitem_last {A} (l : list A) (x : A) :
  list_getitem (l ++ [x]) (-1) = Some x.
Proof.
  unfold list_getitem. rewrite length_app. simpl.
  replace (-1 <? 0) with true by done.
  rewrite (proj2 (Z.ltb_ge _ _)) by lia.
  replace (Z.to_nat (-1 + Z.of_nat (length l + 1))) with (length l) by lia.
  apply list_lookup_middle. done.
Qed.
End lookups.

Section driver_properties.
Context {W E Val Reward Score Delay : Type} `{EqDecision Val}.
Variable co : run.collaborators W E Val Reward Score Delay.
Variable cfg : run.config Delay.
Import run.
Implicit Types (w : W) (d : list (Z * Z * Val)) (best current_state : Val).
Implicit Types (episode steps : Z) (render record over : bool) (fuel : nat).
Implicit Types (scores : list Score) (steps_list : list Z).

(** X8.  In one move, with a dict whose keys are all different: when no
    next state is the state the agent returns (as when there is no next
    state at all) the move raises [TypeError] and the environment is not
    played; otherwise the action played is the first one of the dict whose
    state is that state, and that state is what is stored in the memory of
    the agent and what the game goes on from. *)
Theorem game_step_plays_first_best episode render record current_state steps w w1 w2 d best :
  env_get_next_states co w = (w1, inl d) →
  agent_best_state co (dict_values d) w1 = (w2, inl best) →
  NoDup (map fst d) →
  match find_action d best with
  | None =>
    (best ∉ dict_values d) ∧
    game_step co cfg episode render record current_state steps w = (w2, Throw TypeError)
  | Some a =>
    (∃ front back, d = front ++ (a, best) :: back ∧ best ∉ dict_values front) ∧
    game_step co cfg episode render record current_state steps w =
    (let! (reward, done) :=
       call (env_play co a.1 a.2 episode render (render_delay cfg) record) in
     let! _ := call (agent_add_to_memory co current_state best reward done) in
     ret (best, steps + 1, done)) w2
  end.
Proof.
  intros Hd Hbest Hnodup. unfold game_step.
  rewrite (bind_Done _ _ w w1 d) by (unfold call; by rewrite Hd).
  rewrite (bind_Done _ _ w1 w2 best) by (unfold call; by rewrite Hbest).
  pose proof (find_action_spec d best) as Hspec.
  destruct (find_action d best) as [a|] eqn:Hfind; [|done].
  split; [done|].
  by rewrite (find_action_getitem_best d best a Hnodup Hfind).
Qed.

Lemma game_step_not_lookup_error episode render record current_state steps w :
  ¬ lookup_error (game_step co cfg episode render record current_state steps w).2.
Proof.
  unfold game_step.
  apply bind_not_lookup_error; [apply call_not_lookup_error|]. intros d w1.
  apply bind_not_lookup_error; [apply call_not_lookup_error|]. intros best w2.
  destruct (find_action d best) as [a|] eqn:Hfind.
  - destruct (find_action_getitem d best a Hfind) as [v Hv]. rewrite Hv.
    apply bind_not_lookup_error; [apply call_not_lookup_error|]. intros [reward over] w3.
    apply bind_not_lookup_error; [apply call_not_lookup_error|]. intros _ w4.
    apply ret_not_lookup_error.
  - unfold lookup_error. simpl. by intros [|].
Qed.

Lemma game_step_counts episode render record current_state steps w w' cs' steps' over' :
  game_step co cfg episode render record current_state steps w = (w', Done (cs', steps', over')) →
  steps' = steps + 1.
Proof.
  unfold game_step. intros Hstep.
  apply bind_inv in Hstep as [(w1 & d & _ & Hstep)|(e & _ & ?)]; [|done].
  apply bind_inv in Hstep as [(w2 & best & _ & Hstep)|(e & _ & ?)]; [|done].
  destruct (find_action d best) as [a|]; [|done].
  apply bind_inv in Hstep as [(w3 & [reward over] & _ & Hstep)|(e & _ & ?)]; [|done].
  destruct (dict_getitem d a) as [v|]; [|done].
  apply bind_inv in Hstep as [(w4 & [] & _ & Hstep)|(e & _ & ?)]; [|done].
  unfold ret in Hstep. by injection Hstep as _ _ <- _.
Qed.

Lemma game_not_lookup_error fuel episode render record current_state steps over w :
  ¬ lookup_error (game co cfg fuel episode render record current_state steps over w).2.
Proof.
  revert current_state steps over w.
  induction fuel as [|fuel IH]; intros; simpl;
    destruct (negb over && _); try apply ret_not_lookup_error.
  apply bind_not_lookup_error; [apply game_step_not_lookup_error|].
  intros [[cs' steps'] over'] w'. apply IH.
Qed.

(** With a bound on the moves and fuel for that many, the game ends with a
    number of moves within the bound, or raises. *)
Lemma game_bounded fuel episode render record current_state steps over w :
  0 < max_steps cfg → 0 ≤ steps ≤ max_steps cfg →
  (Z.to_nat (max_steps cfg - steps) ≤ fuel)%nat →
  match (game co cfg fuel episode render record current_state steps over w).2 with
  | Done None => False
  | Done (Some n) => steps ≤ n ≤ max_steps cfg
  | Throw _ => True
  end.
Proof.
  intros Hmax. revert current_state steps over w.
  induction fuel as [|fuel IH]; intros current_state steps over w Hsteps Hfuel; simpl.
  - destruct (negb over && _) eqn:Hgo; simpl; [|lia].
    apply andb_true_iff in Hgo as [_ Hgo]. unfold truthy in Hgo.
    apply orb_true_iff in Hgo as [Hgo|Hgo%Z.ltb_lt]; [|lia].
    apply negb_true_iff, negb_false_iff, Z.eqb_eq in Hgo. lia.
  - destruct (negb over && _) eqn:Hgo; simpl; [|lia].
    apply andb_true_iff in Hgo as [_ Hgo]. unfold truthy in Hgo.
    apply orb_true_iff in Hgo as [Hgo|Hgo%Z.ltb_lt].
    { apply negb_true_iff, negb_false_iff, Z.eqb_eq in Hgo. lia. }
    unfold bind.
    destruct (game_step co cfg episode render record current_state steps w)
      as [w' [[[cs' steps'] over']|e]] eqn:Hstep; [|done].
    apply game_step_counts in Hstep as ->.
    specialize (IH cs' (steps + 1) over' w' ltac:(lia) ltac:(lia)).
    destruct (game co cfg fuel episode render record cs' (steps + 1) over' w').2
      as [[n|]|e]; [lia|done..].
Qed.

Lemma train_step_not_lookup_error episode w :
  ¬ lookup_error (train_step co cfg episode w).2.
Proof.
  unfold train_step. destruct (train_every cfg =? 0).
  - unfold lookup_error. simpl. by intros [|].
  - destruct (_ =? 0); [apply call_not_lookup_error|apply ret_not_lookup_error].
Qed.

(** Where the log is written, the index [-log_every] is within the lists. *)
Lemma log_step_not_lookup_error episode scores steps_list w :
  0 ≤ episode →
  Z.of_nat (length scores) = episode + 1 →
  length steps_list = length scores →
  ¬ lookup_error (log_step co cfg episode scores steps_list w).2.
Proof.
  intros Hnonneg Hscores Hsteps. unfold log_step.
  destruct (truthy (log_every cfg) && truthy episode && _) eqn:Hlog;
    [|apply ret_not_lookup_error].
  apply andb_true_iff in Hlog as [[Hevery Hep]%andb_true_iff Hmod%Z.eqb_eq].
  unfold truthy in *. apply negb_true_iff, Z.eqb_neq in Hevery, Hep.
  apply Z.mod_divide in Hmod as [q Hq]; [|done].
  assert (Hrange : - Z.of_nat (length scores) ≤ - log_every cfg < Z.of_nat (length scores)).
  { assert (Hpos : 0 < episode) by lia.
    rewrite Hscores. clear Hscores Hsteps Hep Hnonneg.
    generalize dependent (log_every cfg). intros every Hevery Hq.
    subst episode.
    destruct (Z.lt_ge_cases q 0), (Z.lt_ge_cases every 0).
    - assert (0 ≤ (- q - 1) * (- every)) by (apply Z.mul_nonneg_nonneg; lia). lia.
    - assert (q * every ≤ 0) by (apply Z.mul_nonpos_nonneg; lia). lia.
    - assert (q * every ≤ 0) by (apply Z.mul_nonneg_nonpos; lia). lia.
    - assert (q ≠ 0) by (intros ->; lia).
      assert (0 ≤ (q - 1) * every) by (apply Z.mul_nonneg_nonneg; lia). lia. }
  destruct (list_getitem_in_range scores _ Hrange) as [sc ->].
  rewrite <- Hsteps in Hrange.
  destruct (list_getitem_in_range steps_list _ Hrange) as [st ->].
  apply call_not_lookup_error.
Qed.

(** What one episode that ends leaves: one more score and one more step
    count, that of its game. *)
Lemma episode_body_inv fuel episode scores steps_list w w' scores' steps_list' :
  episode_body co cfg fuel episode scores steps_list w = (w', Done (Some (scores', steps_list'))) →
  ∃ current_state w1 w2 n score,
    game co cfg fuel episode (render_flag cfg episode) (render_flag cfg episode)
         current_state 0 false w1 = (w2, Done (Some n)) ∧
    scores' = scores ++ [score] ∧ steps_list' = steps_list ++ [n].
Proof.
  unfold episode_body. intros Hbody.
  apply bind_inv in Hbody as [(w1 & cs & _ & Hbody)|(e & _ & ?)]; [|done].
  apply bind_inv in Hbody as [(w2 & played & Hgame & Hbody)|(e & _ & ?)]; [|done].
  destruct played as [n|]; [|done].
  apply bind_inv in Hbody as [(w3 & score & _ & Hbody)|(e & _ & ?)]; [|done].
  apply bind_inv in Hbody as [(w4 & [] & _ & Hbody)|(e & _ & ?)]; [|done].
  apply bind_inv in Hbody as [(w5 & [] & _ & Hbody)|(e & _ & ?)]; [|done].
  unfold ret in Hbody. injection Hbody as _ <- <-.
  by exists cs, w1, w2, n, score.
Qed.

Lemma episode_body_not_lookup_error fuel episode scores steps_list w :
  Z.of_nat (length scores) = episode →
  length steps_list = length scores →
  ¬ lookup_error (episode_body co cfg fuel episode scores steps_list w).2.
Proof.
  intros Hscores Hsteps. unfold episode_body.
  apply bind_not_lookup_error; [apply call_not_lookup_error|]. intros cs w1.
  apply bind_not_lookup_error; [apply game_not_lookup_error|]. intros [n|] w2;
    [|apply ret_not_lookup_error].
  apply bind_not_lookup_error; [apply call_not_lookup_error|]. intros score w3.
  apply bind_not_lookup_error; [apply train_step_not_lookup_error|]. intros _ w4.
  apply bind_not_lookup_error; [|intros; apply ret_not_lookup_error].
  apply log_step_not_lookup_error; rewrite ?length_app; simpl; lia.
Qed.

Lemma episodes_loop_not_lookup_error fuel (k n : nat) scores steps_list w :
  length scores = k → length steps_list = k →
  ¬ lookup_error
      (episodes_loop co cfg fuel (map Z.of_nat (seq k n)) scores steps_list w).2.
Proof.
  revert k scores steps_list w.
  induction n as [|n IH]; intros k scores steps_list w Hscores Hsteps;
    [apply ret_not_lookup_error|].
  cbn [seq map episodes_loop]. unfold bind.
  destruct (episode_body co cfg fuel (Z.of_nat k) scores steps_list w)
    as [w' [[[scores' steps_list']|]|e]] eqn:Hbody; simpl.
  - apply episode_body_inv in Hbody as (cs & w1 & w2 & m & score & _ & -> & ->).
    apply IH; rewrite length_app; simpl; lia.
  - unfold lookup_error. by intros [|].
  - pose proof (episode_body_not_lookup_error fuel (Z.of_nat k) scores steps_list w) as Hsafe.
    rewrite Hbody in Hsafe. apply Hsafe; lia.
Qed.

(** X9.  Whatever the configuration and whatever the collaborators do, the
    loop raises no [KeyError] and no [IndexError] of its own: the action it
    looks up is a key of the dict, and where the log is written the index
    [-log_every] is within the lists of scores and of step counts. *)
Theorem training_never_fails_a_lookup fuel w :
  (training co cfg fuel w).2 ≠ Throw KeyError ∧
  (training co cfg fuel w).2 ≠ Throw IndexError.
Proof.
  pose proof (episodes_loop_not_lookup_error fuel 0 (Z.to_nat (episodes cfg)) [] [] w
                eq_refl eq_refl) as Hsafe.
  unfold lookup_error in Hsafe. unfold training, range. tauto.
Qed.

Lemma episode_body_None fuel episode scores steps_list w w' :
  episode_body co cfg fuel episode scores steps_list w = (w', Done None) →
  ∃ current_state w1,
    game co cfg fuel episode (render_flag cfg episode) (render_flag cfg episode)
         current_state 0 false w1 = (w', Done None).
Proof.
  unfold episode_body. intros Hbody.
  apply bind_inv in Hbody as [(w1 & cs & _ & Hbody)|(e & _ & ?)]; [|done].
  apply bind_inv in Hbody as [(w2 & played & Hgame & Hbody)|(e & _ & ?)]; [|done].
  destruct played as [n|].
  - apply bind_inv in Hbody as [(w3 & score & _ & Hbody)|(e & _ & ?)]; [|done].
    apply bind_inv in Hbody as [(w4 & [] & _ & Hbody)|(e & _ & ?)]; [|done].
    apply bind_inv in Hbody as [(w5 & [] & _ & Hbody)|(e & _ & ?)]; [|done].
    done.
  - unfold ret in Hbody. injection Hbody as <-. by exists cs, w1.
Qed.

Lemma episode_body_bounded fuel episode scores steps_list w :
  0 < max_steps cfg → (Z.to_nat (max_steps cfg) ≤ fuel)%nat →
  match (episode_body co cfg fuel episode scores steps_list w).2 with
  | Done None => False
  | Done (Some (scores', steps_list')) =>
    ∃ score n, scores' = scores ++ [score] ∧ steps_list' = steps_list ++ [n] ∧
               0 ≤ n ≤ max_steps cfg
  | Throw _ => True
  end.
Proof.
  intros Hmax Hfuel.
  destruct (episode_body co cfg fuel episode scores steps_list w)
    as [w' [[[scores' steps_list']|]|e]] eqn:Hbody; simpl; [| |done].
  - apply episode_body_inv in Hbody as (cs & w1 & w2 & n & score & Hgame & -> & ->).
    pose proof (game_bounded fuel episode (render_flag cfg episode) (render_flag cfg episode)
                  cs 0 false w1 Hmax ltac:(lia) ltac:(lia)) as Hbound.
    rewrite Hgame in Hbound. by exists score, n.
  - apply episode_body_None in Hbody as (cs & w1 & Hgame).
    pose proof (game_bounded fuel episode (render_flag cfg episode) (render_flag cfg episode)
                  cs 0 false w1 Hmax ltac:(lia) ltac:(lia)) as Hbound.
    by rewrite Hgame in Hbound.
Qed.

Lemma episodes_loop_bounded fuel (todo : list Z) scores steps_list w :
  0 < max_steps cfg → (Z.to_nat (max_steps cfg) ≤ fuel)%nat →
  Forall (λ n, 0 ≤ n ≤ max_steps cfg) steps_list →
  match (episodes_loop co cfg fuel todo scores steps_list w).2 with
  | Done None => False
  | Done (Some (scores', steps_list')) =>
    length scores' = (length scores + length todo)%nat ∧
    length steps_list' = (length steps_list + length todo)%nat ∧
    Forall (λ n, 0 ≤ n ≤ max_steps cfg) steps_list'
  | Throw _ => True
  end.
Proof.
  intros Hmax Hfuel. revert scores steps_list w.
  induction todo as [|episode todo IH]; intros scores steps_list w Hall; simpl.
  - split_and!; [lia..|done].
  - unfold bind.
    pose proof (episode_body_bounded fuel episode scores steps_list w Hmax Hfuel) as Hbody.
    destruct (episode_body co cfg fuel episode scores steps_list w)
      as [w' [[[scores' steps_list']|]|e]]; simpl in *; [|done..].
    destruct Hbody as (score & n & -> & -> & Hn).
    specialize (IH (scores ++ [score]) (steps_list ++ [n]) w').
    destruct (episodes_loop co cfg fuel todo (scores ++ [score]) (steps_list ++ [n]) w').2
      as [[[scores' steps_list']|]|e]; [| |done].
    + destruct IH as (Hs & Hl & Hb); [apply Forall_app_2; [done|by constructor]|].
      rewrite !length_app in *. simpl in *. split_and!; [lia..|done].
    + apply IH. apply Forall_app_2; [done|by constructor].
Qed.

(** X10.  With a positive bound on the moves of a game and fuel for that
    many moves, the loop does not run out of fuel: it raises, or it returns
    one score and one step count for each of the [episodes] episodes, every
    step count being between 0 and [max_steps]. *)
Theorem training_bounded fuel w :
  0 < max_steps cfg → (Z.to_nat (max_steps cfg) ≤ fuel)%nat →
  match (training co cfg fuel w).2 with
  | Done None => False
  | Done (Some (scores, steps_list)) =>
    length scores = Z.to_nat (episodes cfg) ∧
    length steps_list = Z.to_nat (episodes cfg) ∧
    Forall (λ n, 0 ≤ n ≤ max_steps cfg) steps_list
  | Throw _ => True
  end.
Proof.
  intros Hmax Hfuel. unfold training.
  pose proof (episodes_loop_bounded fuel (range (episodes cfg)) [] [] w Hmax Hfuel
                ltac:(constructor)) as Hloop.
  destruct (episodes_loop co cfg fuel (range (episodes cfg)) [] [] w).2
    as [[[scores steps_list]|]|e]; [|done..].
  unfold range in Hloop. rewrite length_map, length_seq in Hloop. simpl in Hloop. done.
Qed.

(** X11.  With the constants as [dqn] sets them, an episode is: reset, a
    game that is rendered and recorded, the score, a training of the agent
    on 512 transitions for one epoch, and, except for episode 0, a line of
    log whose score and step count are those of this one episode. *)
Theorem dqn_episode_as_written (delay : Delay) fuel episode scores steps_list w :
  episode_body co (dqn_config delay) fuel episode scores steps_list w =
  (let! current_state := call (env_reset co) in
   let! played := game co (dqn_config delay) fuel episode true true current_state 0 false in
   match played with
   | None => ret None
   | Some n =>
     let! score := call (env_get_game_score co) in
     let! _ := call (agent_train co 512 1) in
     let! _ := (if episode =? 0 then ret tt else call (log_log co episode score n)) in
     ret (Some (scores ++ [score], steps_list ++ [n]))
   end) w.
Proof.
  unfold episode_body, render_flag, train_step, log_step. cbn [dqn_config
    render_every episodes train_every log_every batch_size epochs].
  rewrite Z.mod_1_r. cbn [truthy Z.eqb negb andb orb].
  unfold bind.
  destruct (call (env_reset co) w) as [w1 [cs|e]]; [|done].
  destruct (game co (dqn_config delay) fuel episode true true cs 0 false w1)
    as [w2 [[n|]|e]]; [|done..].
  destruct (call (env_get_game_score co) w2) as [w3 [score|e]]; [|done].
  destruct (call (agent_train co 512 1) w3) as [w4 [[]|e]]; [|done].
  unfold truthy. replace (- (1)) with (-1) by done.
  rewrite !list_getitem_last.
  by destruct (episode =? 0).
Qed.

Lemma episode_body_needs_training fuel episode scores steps_list w r :
  train_every cfg = 0 →
  (episode_body co cfg fuel episode scores steps_list w).2 ≠ Done (Some r).
Proof.
  intros Hzero Hbody.
  destruct (episode_body co cfg fuel episode scores steps_list w) as [w' o] eqn:Heq.
  simpl in Hbody. subst o. unfold episode_body in Heq.
  apply bind_inv in Heq as [(w1 & cs & _ & Heq)|(e & _ & ?)]; [|done].
  apply bind_inv in Heq as [(w2 & played & _ & Heq)|(e & _ & ?)]; [|done].
  destruct played as [n|]; [|done].
  apply bind_inv in Heq as [(w3 & score & _ & Heq)|(e & _ & ?)]; [|done].
  apply bind_inv in Heq as [(w4 & [] & Htrain & _)|(e & _ & ?)]; [|done].
  unfold train_step in Htrain. rewrite Hzero in Htrain. done.
Qed.

(** X12.  Unlike [render_every] and [log_every], [train_every] is divided
    by without a test: when it is 0 and there is at least one episode, the
    loop never comes to its end, as the first episode whose game ends raises
    [ZeroDivisionError] before the agent is trained. *)
Theorem training_needs_train_every fuel w :
  train_every cfg = 0 → 1 ≤ episodes cfg →
  (∀ r, (training co cfg fuel w).2 ≠ Done (Some r)) ∧
  ∀ current_state w1 w2 w3 n score,
    env_reset co w = (w1, inl current_state) →
    game co cfg fuel 0 (render_flag cfg 0) (render_flag cfg 0) current_state 0 false w1
    = (w2, Done (Some n)) →
    env_get_game_score co w2 = (w3, inl score) →
    training co cfg fuel w = (w3, Throw ZeroDivisionError).
Proof.
  intros Hzero Hepisodes. unfold training, range.
  destruct (Z.to_nat (episodes cfg)) as [|m] eqn:Hm; [lia|].
  cbn [seq map episodes_loop]. split.
  - intros r. unfold bind.
    pose proof (episode_body_needs_training fuel (Z.of_nat 0) [] [] w) as Hbody.
    destruct (episode_body co cfg fuel (Z.of_nat 0) [] [] w)
      as [w' [[[scores' steps_list']|]|e]]; simpl in *; [|done..].
    by destruct (Hbody (scores', steps_list') Hzero).
  - intros cs w1 w2 w3 n score Hreset Hgame Hscore.
    apply bind_Throw. unfold episode_body.
    rewrite (bind_Done _ _ w w1 cs) by (unfold call; by rewrite Hreset).
    change (Z.of_nat 0) with 0.
    rewrite (bind_Done _ _ w1 w2 (Some n)) by done.
    rewrite (bind_Done _ _ w2 w3 score) by (unfold call; by rewrite Hscore).
    apply bind_Throw. unfold train_step. by rewrite Hzero.
Qed.
End driver_properties.

(** ** The claims on the sample data *)

Import Sample.

(** The run of the specification's example: size 2, observations a, b, c. *)
Example sliding_windows :
  map ev_window (trace stub_act (stack 2 false) store1 calls) = [[a; a]; [a; b]; [b; c]].
Proof. vm_compute. reflexivity. Qed.

Example interleaved_channels :
  torch.cat [a; b] = Ok (torch.mkTensor [2; 2; 2]%nat [1; 2; 5; 6; 3; 4; 7; 8]).
Proof. reflexivity. Qed.

Example cat_skips_shape_0 :
  torch.cat [torch.mkTensor [0]%nat []; a] = Ok a.
Proof. reflexivity. Qed.

Example cat_refuses_mismatch :
  torch.cat [a; torch.mkTensor [3; 1; 2]%nat [1; 2; 3; 4; 5; 6]] = Raise RuntimeError.
Proof. reflexivity. Qed.

Example cat_refuses_empty_list : torch.cat (elt:=Z) [] = Raise RuntimeError.
Proof. reflexivity. Qed.

Example cat_refuses_zero_dim_anywhere :
  torch.cat [torch.mkTensor [3]%nat [1; 2; 3]; torch.mkTensor [] [7]] = Raise RuntimeError ∧
  torch.cat [torch.mkTensor [3]%nat [1; 2; 3]; a] = Raise IndexError.
Proof. split; reflexivity. Qed.

Example stub_records_its_inputs :
  agent (acts stub_act (stack 1 false) store1 [(sa, 0); (sb, 1)]).1 =
  [(Eager sa, 0); (Eager sb, 1)].
Proof. vm_compute. reflexivity. Qed.

Lemma C1_witness :
  1 ≤ 2 ∧
  __init__ ([] : Stub) 2 true store0 = (store1, Ok (stack 2 true)) ∧
  let r := acts stub_act (stack 2 true) store1 ((sa, 0) :: [(sb, 1); (sc, -1)]) in
  window r.1 r.2 =
  last_n (Z.to_nat 2)
         (replicate (Z.to_nat 2) (raw sa) ++ map (λ c, raw c.1) [(sb, 1); (sc, -1)]).
Proof.
  split; [lia|]. split; [reflexivity|].
  apply (C1_window_slides stub_act [] 2 true store0); [lia | reflexivity].
Defined.

Lemma C2_witness :
  __init__ ([] : Stub) 2 true store0 = (store1, Ok (stack 2 true)) ∧
  __init__ ([] : Stub) 2 false store0 = (store1, Ok (stack 2 false)) ∧
  Forall2 lazy_matches_eager
          (trace stub_act (stack 2 true) store1 calls)
          (trace stub_act (stack 2 false) store1 calls).
Proof.
  split; [reflexivity|]. split; [reflexivity|].
  apply (C2_lazy_features_are_eager_raw stub_act [] [] 2 store0 store0); reflexivity.
Defined.

Lemma C3_witness :
  (compose (stack 2 true) store1 sa).2 = Ok (Lazy (mkState 3%positive 1 10%nat)) ∧
  let r := act stub_act (stack 2 true) store1 sa 0 in
  let r' := act stub_act r.1.1 r.1.2 sb 1 in
  LazyState_features r'.1.2 (mkState 3%positive 1 10%nat) =
  LazyState_features r.1.2 (mkState 3%positive 1 10%nat) ∧
  deref r'.1.2 (raw (mkState (Info:=nat) 3%positive 1 10%nat)) =
  deref r.1.2 (raw (mkState (Info:=nat) 3%positive 1 10%nat)) ∧
  _frames r'.1.1 ≠ raw (mkState (Info:=nat) 3%positive 1 10%nat).
Proof.
  split; [vm_compute; reflexivity|].
  apply (C3_lazy_state_is_a_snapshot stub_act (stack 2 true) store1 sa 0).
  vm_compute; reflexivity.
Defined.

Lemma C4_witness :
  1 ≤ 2 ∧
  __init__ ([] : Stub) 2 true store0 = (store1, Ok (stack 2 true)) ∧
  __init__ ([] : Stub) 2 false store0 = (store1, Ok (stack 2 false)) ∧
  Forall (λ c : State Z nat * Z, has_channel_axis (raw c.1)) calls ∧
  Forall2 (λ l e, ∃ f b, head (ev_window l) = Some f ∧ head (ev_window e) = Some f ∧
                         In f (map (λ c : State Z nat * Z, raw c.1) calls) ∧
                         torch.len f = Ok b ∧
                         (∀ c, l.2 = Ok c → len l.1.2 c = Ok b) ∧
                         (∀ c, e.2 = Ok c → len e.1.2 c = Ok b))
          (trace stub_act (stack 2 true) store1 calls)
          (trace stub_act (stack 2 false) store1 calls).
Proof.
  assert (Hobs : Forall (λ c : State Z nat * Z, has_channel_axis (raw c.1)) calls).
  { repeat constructor; unfold has_channel_axis; simpl; lia. }
  split; [lia|]. split; [reflexivity|]. split; [reflexivity|]. split; [exact Hobs|].
  apply (C4_len_is_batch_size stub_act [] [] 2 store0 store0);
    [lia | reflexivity | reflexivity | exact Hobs].
Defined.

Lemma C5_witness :
  let out := compose (stack 2 false) store1 sa in
  let c := Eager (mkState (torch.mkTensor [2; 2; 2]%nat [1; 2; 1; 2; 3; 4; 3; 4]) 1 10%nat) in
  out = (out.1.1, out.1.2, Ok c) ∧
  let r := act stub_act (stack 2 false) store1 sa 7 in
  r.2 = (stub_act out.1.2 (agent (stack 2 false)) c 7).2 ∧
  agent r.1.1 = (stub_act out.1.2 (agent (stack 2 false)) c 7).1.
Proof.
  intros out c.
  assert (Hout : out = (out.1.1, out.1.2, Ok c)) by (vm_compute; reflexivity).
  split; [exact Hout|].
  exact (C5_delegation stub_act (stack 2 false) store1 sa 7 out.1.1 out.1.2 c Hout).
Defined.

Lemma C6_witness :
  let out := compose (stack 2 true) store1 sb in
  let c := Lazy (mkState 3%positive 0 11%nat) in
  out = (out.1.1, out.1.2, Ok c) ∧
  mask_of c = mask sb ∧ info_of c = info sb.
Proof.
  intros out c.
  assert (Hout : out = (out.1.1, out.1.2, Ok c)) by (vm_compute; reflexivity).
  split; [exact Hout|].
  exact (C6_mask_info_pass_through (stack 2 true) store1 sb out.1.1 out.1.2 c Hout).
Defined.


(** C8, as the claim has it, fails: the constructor returns a [FrameStack]
    of size 0. *)
Lemma C8_counterexample :
  0 ≤ 0 ∧
  (__init__ ([] : Stub) 0 false store0).2 = Ok (stack 0 false) ∧
  ¬ raises (__init__ ([] : Stub) 0 false store0).2.
Proof.
  split; [lia|]. split; [reflexivity|]. intros [e He]. discriminate He.
Qed.

Lemma C8_witness :
  0 ≤ 0 ∧
  ∃ h self,
    __init__ ([] : Stub) 0 false store0 = (h, Ok self) ∧
    ∀ (calls : list (State Z nat * Z)) (state : State Z nat) (reward : Z),
      let s := acts stub_act self h calls in
      let r := act stub_act s.1 s.2 state reward in
      window s.1 s.2 = [] ∧ window r.1.1 r.1.2 = [] ∧
      r.2 = Raise RuntimeError ∧ agent r.1.1 = [] ∧ agent s.1 = [].
Proof.
  split; [lia|].
  destruct (C8_failure_is_deferred stub_act ([] : Stub) 0 false store0)
    as (h & self & Hinit & Hcalls).
  exists h, self. split; [exact Hinit|].
  apply Hcalls. lia.
Defined.

Lemma C9_witness :
  let r0 := act stub_act (stack 2 false) store1 sa 0 in
  Forall2 same_but_mask calls calls' ∧
  Forall2 (λ e1 e2, ev_window e1 = ev_window e2 ∧ ev_features e1 = ev_features e2)
          (trace stub_act r0.1.1 r0.1.2 calls)
          (trace stub_act r0.1.1 r0.1.2 calls') ∧
  mask sb = 0 ∧ window r0.1.1 r0.1.2 ≠ [] ∧
  let r := act stub_act r0.1.1 r0.1.2 sb 1 in
  let r' := act stub_act r.1.1 r.1.2 sc 2 in
  window r.1.1 r.1.2 = drop 1 (window r0.1.1 r0.1.2) ++ [raw sb] ∧
  window r'.1.1 r'.1.2 =
  drop 1 (drop 1 (window r0.1.1 r0.1.2) ++ [raw sb]) ++ [raw sc].
Proof.
  intros r0.
  assert (Hcalls : Forall2 same_but_mask calls calls').
  { repeat constructor. }
  assert (Hwin : window r0.1.1 r0.1.2 ≠ []).
  { intros Hnil. vm_compute in Hnil. discriminate Hnil. }
  destruct (C9_window_ignores_mask stub_act r0.1.1 r0.1.2 calls calls' Hcalls)
    as [Hsame Hslide].
  split; [exact Hcalls|]. split; [exact Hsame|].
  split; [reflexivity|]. split; [exact Hwin|].
  exact (Hslide sb 1 sc 2 eq_refl Hwin).
Defined.


(** ** The further properties on the sample data *)

Example mismatch_run :
  map (λ ev, ev_features ev)
      (trace stub_act (stack 2 false) store1 [(sa, 0); (sodd, 1); (sb, 1); (sc, 1)]) =
  [torch.cat [a; a]; Raise RuntimeError; Raise RuntimeError; torch.cat [b; c]].
Proof. vm_compute. reflexivity. Qed.

Lemma lazy_state_outlives_calls_witness :
  (compose (stack 2 true) store1 sa).2 = Ok (Lazy (mkState 3%positive 1 10%nat)) ∧
  let r := act stub_act (stack 2 true) store1 sa 0 in
  let r' := acts stub_act r.1.1 r.1.2 [(sb, 1); (sc, -1)] in
  LazyState_features r'.2 (mkState 3%positive 1 10%nat) =
  LazyState_features r.1.2 (mkState 3%positive 1 10%nat) ∧
  LazyState_len r'.2 (mkState (Info:=nat) 3%positive 1 10%nat) =
  LazyState_len r.1.2 (mkState (Info:=nat) 3%positive 1 10%nat) ∧
  ([(sb, 1); (sc, -1)] ≠ [] → _frames r'.1 ≠ raw (mkState (Info:=nat) 3%positive 1 10%nat)).
Proof.
  split; [vm_compute; reflexivity|].
  apply (lazy_state_outlives_calls stub_act (stack 2 true) store1 sa 0).
  vm_compute; reflexivity.
Defined.

Lemma window_padding_witness :
  1 ≤ 4 ∧
  __init__ ([] : Stub) 4 false store0 = (store1, Ok (stack 4 false)) ∧
  head [(sa, 0); (sb, 1)] = Some (sa, 0) ∧
  let r := acts stub_act (stack 4 false) store1 [(sa, 0); (sb, 1)] in
  window r.1 r.2 =
  replicate (Z.to_nat 4 - length [(sa, 0); (sb, 1)]) (raw (sa, 0).1) ++
  last_n (Z.to_nat 4) (map (λ c : State Z nat * Z, raw c.1) [(sa, 0); (sb, 1)]).
Proof.
  split; [lia|]. split; [reflexivity|]. split; [reflexivity|].
  apply (window_padding stub_act [] 4 false store0); [lia | reflexivity | reflexivity].
Defined.

Lemma lazy_act_always_delegates_witness :
  _lazy (stack 2 true) = true ∧
  let out := compose (stack 2 true) store1 sodd in
  let ls := mkState (_frames out.1.1) (mask sodd) (info sodd) in
  out.2 = Ok (Lazy ls) ∧
  (act stub_act (stack 2 true) store1 sodd 5).2 =
  (stub_act out.1.2 (agent (stack 2 true)) (Lazy ls) 5).2.
Proof.
  split; [reflexivity|].
  apply (lazy_act_always_delegates stub_act (stack 2 true) store1 sodd 5). reflexivity.
Defined.

Lemma failed_act_keeps_the_slide_witness :
  let r0 := act stub_act (stack 2 false) store1 sa 0 in
  (compose r0.1.1 r0.1.2 sodd).2 = Raise RuntimeError ∧
  let r := act stub_act r0.1.1 r0.1.2 sodd 1 in
  r.2 = Raise RuntimeError ∧
  agent r.1.1 = agent r0.1.1 ∧
  window r.1.1 r.1.2 = next_window (_size r0.1.1) (window r0.1.1 r0.1.2) (raw sodd).
Proof.
  intros r0.
  assert (Hfail : (compose r0.1.1 r0.1.2 sodd).2 = Raise RuntimeError)
    by (vm_compute; reflexivity).
  split; [exact Hfail|].
  exact (failed_act_keeps_the_slide stub_act r0.1.1 r0.1.2 sodd 1 RuntimeError Hfail).
Defined.

Lemma lazy_len_is_len_of_features_witness :
  let h := (act stub_act (stack 2 true) store1 sa 0).1.2 in
  let ls : LazyState nat := mkState 3%positive 1 10%nat in
  let t := torch.mkTensor [2; 2; 2]%nat [1; 2; 1; 2; 3; 4; 3; 4] in
  Forall has_channel_axis (deref h (raw ls)) ∧
  LazyState_features h ls = Ok t ∧
  LazyState_len h ls = torch.len t.
Proof.
  intros h ls t.
  assert (Hall : Forall has_channel_axis (deref h (raw ls))).
  { change (deref h (raw ls)) with [a; a]. repeat constructor. }
  assert (Hfeat : LazyState_features h ls = Ok t) by (vm_compute; reflexivity).
  split; [exact Hall|]. split; [exact Hfeat|].
  exact (lazy_len_is_len_of_features h ls t Hall Hfeat).
Defined.

Lemma eager_raw_adds_channels_witness :
  1 ≤ 2 ∧
  __init__ ([] : Stub) 2 false store0 = (store1, Ok (stack 2 false)) ∧
  Forall (λ c : State Z nat * Z, fits 2 [2%nat] (raw c.1) ∧ torch.wf (raw c.1))
         [(sa, 0); (swide, 1); (sb, 2)] ∧
  Forall (λ ev, ∃ st, ev.2 = Ok (Eager st) ∧
                      torch.shape (raw st) =
                      2%nat :: sum_list (map torch.channels (ev_window ev)) :: [2%nat] ∧
                      torch.wf (raw st))
         (trace stub_act (stack 2 false) store1 [(sa, 0); (swide, 1); (sb, 2)]).
Proof.
  assert (Hobs : Forall (λ c : State Z nat * Z,
                           fits 2 [2%nat] (raw c.1) ∧ torch.wf (raw c.1))
                        [(sa, 0); (swide, 1); (sb, 2)]).
  { repeat constructor; by eexists. }
  split; [lia|]. split; [reflexivity|]. split; [exact Hobs|].
  apply (eager_raw_adds_channels stub_act [] 2 store0); [lia | reflexivity | exact Hobs].
Defined.

Lemma mismatch_fails_size_calls_witness :
  2 ≤ 2 ∧
  __init__ ([] : Stub) 2 false store0 = (store1, Ok (stack 2 false)) ∧
  [(sa, 0)] ≠ [] ∧
  Forall (λ c : State Z nat * Z, fits 2 [2%nat] (raw c.1)) [(sa, 0)] ∧
  has_channel_axis (raw (sodd, 1).1) ∧ ¬ fits 2 [2%nat] (raw (sodd, 1).1) ∧
  Forall (λ c : State Z nat * Z, fits 2 [2%nat] (raw c.1)) [(sb, 1); (sc, 1); (sa, 1)] ∧
  let T := trace stub_act (stack 2 false) store1
                 ([(sa, 0)] ++ (sodd, 1) :: [(sb, 1); (sc, 1); (sa, 1)]) in
  Forall (λ ev, ∃ st, ev.2 = Ok (Eager st)) (take (length [(sa, 0)]) T) ∧
  Forall (λ ev, ev.2 = Raise RuntimeError)
         (take (Z.to_nat 2) (drop (length [(sa, 0)]) T)) ∧
  Forall (λ ev, ∃ st, ev.2 = Ok (Eager st))
         (drop (length [(sa, 0)] + Z.to_nat 2) T).
Proof.
  assert (Hpre : Forall (λ c : State Z nat * Z, fits 2 [2%nat] (raw c.1)) [(sa, 0)]).
  { repeat constructor; by eexists. }
  assert (Hpost : Forall (λ c : State Z nat * Z, fits 2 [2%nat] (raw c.1))
                         [(sb, 1); (sc, 1); (sa, 1)]).
  { repeat constructor; by eexists. }
  assert (Hax : has_channel_axis (raw (sodd, 1).1)).
  { unfold has_channel_axis. simpl. lia. }
  assert (Hbad : ¬ fits 2 [2%nat] (raw (sodd, 1).1)).
  { intros [ch Hch]. discriminate Hch. }
  split; [lia|]. split; [reflexivity|]. split; [discriminate|].
  split; [exact Hpre|]. split; [exact Hax|]. split; [exact Hbad|]. split; [exact Hpost|].
  apply (mismatch_fails_size_calls stub_act [] 2 store0 store1 (stack 2 false)
           [(sa, 0)] (sodd, 1) [(sb, 1); (sc, 1); (sa, 1)] 2%nat [2%nat]);
    [lia | reflexivity | discriminate | exact Hpre | exact Hax | exact Hbad | exact Hpost].
Defined.

Example training_two_episodes :
  (run.training RunSample.co RunSample.two_episodes 2 []).2 =
  run.Done (Some ([2; 2], [2; 2])).
Proof. vm_compute. reflexivity. Qed.

Lemma game_step_plays_first_best_witness :
  run.env_get_next_states RunSample.co [] = ([RunSample.NextStates], inl RunSample.board) ∧
  run.agent_best_state RunSample.co (run.dict_values RunSample.board) [RunSample.NextStates]
  = ([RunSample.Best; RunSample.NextStates], inl 2) ∧
  NoDup (map fst RunSample.board) ∧
  match run.find_action RunSample.board 2 with
  | None =>
    (2 ∉ run.dict_values RunSample.board) ∧
    run.game_step RunSample.co RunSample.two_episodes 0 true true 0 0 []
    = ([RunSample.Best; RunSample.NextStates], run.Throw run.TypeError)
  | Some act1 =>
    (∃ front back, RunSample.board = front ++ (act1, 2) :: back ∧
                   2 ∉ run.dict_values front) ∧
    run.game_step RunSample.co RunSample.two_episodes 0 true true 0 0 [] =
    run.bind
      (run.call (run.env_play RunSample.co act1.1 act1.2 0 true
                   (run.render_delay RunSample.two_episodes) true))
      (λ '(reward, over),
         run.bind (run.call (run.agent_add_to_memory RunSample.co 0 2 reward over))
                  (λ _, run.ret (2, 0 + 1, over)))
      [RunSample.Best; RunSample.NextStates]
  end.
Proof.
  assert (Hnodup : NoDup (map fst RunSample.board)).
  { apply (bool_decide_unpack _). vm_compute. exact I. }
  split; [reflexivity|]. split; [reflexivity|]. split; [exact Hnodup|].
  exact (game_step_plays_first_best RunSample.co RunSample.two_episodes 0 true true 0 0
           [] [RunSample.NextStates] [RunSample.Best; RunSample.NextStates]
           RunSample.board 2 eq_refl eq_refl Hnodup).
Defined.

Lemma training_bounded_witness :
  0 < run.max_steps RunSample.two_episodes ∧
  (Z.to_nat (run.max_steps RunSample.two_episodes) ≤ 2)%nat ∧
  match (run.training RunSample.co RunSample.two_episodes 2 []).2 with
  | run.Done None => False
  | run.Done (Some (scores, steps_list)) =>
    length scores = Z.to_nat (run.episodes RunSample.two_episodes) ∧
    length steps_list = Z.to_nat (run.episodes RunSample.two_episodes) ∧
    Forall (λ n, 0 ≤ n ≤ run.max_steps RunSample.two_episodes) steps_list
  | run.Throw _ => True
  end.
Proof.
  split; [reflexivity|]. split; [simpl; lia|].
  apply (training_bounded RunSample.co RunSample.two_episodes 2 []);
    [reflexivity | simpl; lia].
Defined.

Lemma training_needs_train_every_witness :
  run.train_every RunSample.never_trains = 0 ∧
  1 ≤ run.episodes RunSample.never_trains ∧
  (∀ r, (run.training RunSample.co RunSample.never_trains 2 []).2 ≠ run.Done (Some r)) ∧
  ∀ current_state w1 w2 w3 n score,
    run.env_reset RunSample.co [] = (w1, inl current_state) →
    run.game RunSample.co RunSample.never_trains 2 0
             (run.render_flag RunSample.never_trains 0)
             (run.render_flag RunSample.never_trains 0) current_state 0 false w1
    = (w2, run.Done (Some n)) →
    run.env_get_game_score RunSample.co w2 = (w3, inl score) →
    run.training RunSample.co RunSample.never_trains 2 [] = (w3, run.Throw run.ZeroDivisionError).
Proof.
  split; [reflexivity|]. split; [simpl; lia|].
  apply (training_needs_train_every RunSample.co RunSample.never_trains 2 []);
    [reflexivity | simpl; lia].
Defined.
